(** * STOCK_BOT: the news poller of [index.js]

    A shallow embedding of the classifier ([isMarketRelevant],
    [analyzeSentiment]), the duplicate caches ([isSimilarTitleExists],
    [addToCache]), the message formatter, the Telegram dispatcher
    ([sendToTelegram]) and the poll tick ([checkNewsFeeds]), followed by the
    properties of the specification that concern them.

    JavaScript strings are modelled as [string] (sequences of 8-bit
    characters); [toLowerCase], [trim] and the regular-expression classes
    [\b] and [\d] act on the ASCII range, which is where they act on ASCII
    text. *)

From Stdlib Require Import String Ascii List ZArith Lia Bool Arith PeanoNat.
Import ListNotations.
Open Scope string_scope.
Open Scope list_scope.
Open Scope nat_scope.

(* ================================================================== *)
(** * Part I: definitions                                              *)
(* ================================================================== *)

(** ** JavaScript strings *)

Definition charCode (c : ascii) : nat := nat_of_ascii c.

Definition inRange (lo hi : nat) (c : ascii) : bool :=
  (lo <=? charCode c) && (charCode c <=? hi).

Definition isUpper (c : ascii) : bool := inRange 65 90 c.
Definition isLower (c : ascii) : bool := inRange 97 122 c.
Definition isDigit (c : ascii) : bool := inRange 48 57 c.

(** The class [\w] of a non-unicode regular expression: [A-Za-z0-9_]. *)
Definition isWordChar (c : ascii) : bool :=
  isUpper c || isLower c || isDigit c || (charCode c =? 95).

(** White space removed by [String.prototype.trim] among the ASCII
    characters: TAB, LF, VT, FF, CR and SPACE.  The white space [trim]
    removes beyond ASCII (U+00A0, U+FEFF and others) is not part of the
    embedding. *)
Definition isSpace (c : ascii) : bool := inRange 9 13 c || (charCode c =? 32).

Definition toLowerChar (c : ascii) : ascii :=
  if isUpper c then ascii_of_nat (charCode c + 32) else c.

Definition toUpperChar (c : ascii) : ascii :=
  if isLower c then ascii_of_nat (charCode c - 32) else c.

(** [String.prototype.toLowerCase] on ASCII text: the letters A to Z are
    lower-cased, every other character is left as it is. *)
Fixpoint toLowerCase (s : string) : string :=
  match s with
  | EmptyString => EmptyString
  | String c s' => String (toLowerChar c) (toLowerCase s')
  end.

Fixpoint trimStart (s : string) : string :=
  match s with
  | EmptyString => EmptyString
  | String c s' => if isSpace c then trimStart s' else s
  end.

Fixpoint trimEnd (s : string) : string :=
  match s with
  | EmptyString => EmptyString
  | String c s' =>
      match trimEnd s' with
      | EmptyString => if isSpace c then EmptyString else String c EmptyString
      | t => String c t
      end
  end.

Definition trim (s : string) : string := trimEnd (trimStart s).

(** [s.includes(k)]: [k] occurs in [s] as a contiguous substring. *)
Fixpoint includes (s k : string) : bool :=
  prefix k s ||
  match s with
  | EmptyString => false
  | String _ s' => includes s' k
  end.

(** [a || b] on values that are a string or [undefined]: [undefined] and
    the empty string are falsy. *)
Definition truthy (v : option string) : bool :=
  match v with
  | Some EmptyString => false
  | Some _ => true
  | None => false
  end.

Definition jsOr (a b : option string) : option string :=
  if truthy a then a else b.

(** [ToString] of a string or [undefined]. *)
Definition jsToString (v : option string) : string :=
  match v with
  | Some s => s
  | None => "undefined"
  end.

(** ** Regular expressions of the form [\bkeyword\b] with the [g] flag *)

Definition head (s : string) : option ascii :=
  match s with
  | EmptyString => None
  | String c _ => Some c
  end.

Definition isWordOpt (c : option ascii) : bool :=
  match c with
  | Some c => isWordChar c
  | None => false
  end.

(** The assertion [\b] between the character before the current index
    ([None] at the start of the input) and the character at it ([None] at
    the end). *)
Definition wordBoundary (prev next : option ascii) : bool :=
  xorb (isWordOpt prev) (isWordOpt next).

(** Matching the literal characters of the keyword at the current index;
    on success the last character consumed and the rest of the input. *)
Fixpoint matchLiteral (prev : option ascii) (kw s : string)
  : option (option ascii * string) :=
  match kw with
  | EmptyString => Some (prev, s)
  | String k kw' =>
      match s with
      | EmptyString => None
      | String c s' =>
          if Ascii.eqb k c then matchLiteral (Some c) kw' s' else None
      end
  end.

(** One attempt of [/\bkw\b/] anchored at the current index.  The
    keywords the bot builds such expressions from are plain letters, so the
    pattern between the two assertions is the keyword itself. *)
Definition matchWordAt (prev : option ascii) (kw s : string)
  : option (option ascii * string) :=
  if wordBoundary prev (head s) then
    match matchLiteral prev kw s with
    | Some (last, rest) =>
        if wordBoundary last (head rest) then Some (last, rest) else None
    | None => None
    end
  else None.

(** The number of matches collected by [content.match(regex)] with the
    [g] flag: the leftmost match from [lastIndex] is taken, [lastIndex]
    moves to its end (one further after an empty match), and the search
    resumes there.  [fuel] bounds the number of indices visited. *)
Fixpoint matchAllFrom (fuel : nat) (prev : option ascii) (kw s : string) : nat :=
  match fuel with
  | O => O
  | S fuel' =>
      match matchWordAt prev kw s with
      | Some (last, rest) =>
          match kw with
          | EmptyString =>
              match s with
              | EmptyString => 1
              | String c s' => S (matchAllFrom fuel' (Some c) kw s')
              end
          | _ => S (matchAllFrom fuel' last kw rest)
          end
      | None =>
          match s with
          | EmptyString => O
          | String c s' => matchAllFrom fuel' (Some c) kw s'
          end
      end
  end.

(** [(content.match(new RegExp('\\b' + kw + '\\b', 'g')) || []).length] *)
Definition countMatches (kw content : string) : nat :=
  matchAllFrom (S (String.length content)) None kw content.

(** ** Configuration and keyword lists *)

Definition MAX_CACHE_SIZE : nat := 1000.
Definition MESSAGE_DELAY : Z := 2000.

Definition RSS_FEEDS : list string :=
  [ "https://finance.yahoo.com/news/rssindex";
    "https://www.marketwatch.com/rss/topstories";
    "https://www.cnbc.com/id/100003114/device/rss/rss.html";
    "https://economictimes.indiatimes.com/markets/rssfeeds/1977021501.cms";
    "https://www.moneycontrol.com/rss/market.xml";
    "https://www.business-standard.com/rss/markets-106.rss" ].

Definition MARKET_KEYWORDS : list string :=
  [ "fed"; "federal reserve"; "interest rate"; "rates"; "inflation"; "cpi"; "gdp"; "unemployment";
    "nifty"; "sensex"; "bse"; "nse"; "rbi"; "sebi"; "rupee"; "rbi governor";
    "earnings"; "revenue"; "profit"; "loss"; "forecast"; "guidance"; "outlook";
    "crash"; "correction"; "bear market"; "bull market"; "recession"; "depression";
    "rally"; "surge"; "plunge"; "tumble"; "soar"; "slump";
    "stock market"; "wall street"; "dow jones"; "nasdaq"; "s&p"; "russell";
    "treasury"; "bond"; "yield"; "debt"; "default";
    "ipo"; "merger"; "acquisition"; "bankrupt"; "chapter 11";
    "economic"; "economy"; "fiscal"; "monetary policy";
    "stimulus"; "bailout"; "regulation"; "deregulation";
    "trade war"; "tariff"; "sanction"; "embargo" ].

Definition POSITIVE_KEYWORDS : list string :=
  [ "rise"; "rises"; "rising"; "rose"; "gain"; "gains"; "gained"; "up"; "higher";
    "surge"; "surges"; "surged"; "rally"; "rallies"; "rallied"; "recover"; "recovers"; "recovered";
    "beat"; "beats"; "beating"; "exceed"; "exceeds"; "exceeded"; "outperform"; "outperforms";
    "strong"; "stronger"; "strongest"; "positive"; "optimistic"; "optimism"; "confidence";
    "bullish"; "boom"; "soar"; "soars"; "soared"; "jump"; "jumps"; "jumped";
    "growth"; "expand"; "expands"; "expanded"; "breakthrough"; "success" ].

Definition NEGATIVE_KEYWORDS : list string :=
  [ "fall"; "falls"; "falling"; "fell"; "drop"; "drops"; "dropped"; "down"; "lower";
    "plunge"; "plunges"; "plunged"; "tumble"; "tumbles"; "tumbled"; "sink"; "sinks"; "sank";
    "miss"; "misses"; "missed"; "fail"; "fails"; "failed"; "underperform"; "underperforms";
    "weak"; "weaker"; "weakest"; "negative"; "pessimistic"; "pessimism"; "concern"; "concerned";
    "bearish"; "bust"; "crash"; "crashes"; "crashed"; "collapse"; "collapses"; "collapsed";
    "decline"; "declines"; "declined"; "shrink"; "shrinks"; "shrank"; "crisis"; "warning" ].

(** ** Articles *)

(** An item of a parsed feed, with the fields the bot reads; an absent
    field ([undefined]) is [None].  The title is taken to be present: for
    an item without one [title.toLowerCase()] throws in
    [isSimilarTitleExists], before the relevance filter is reached, and
    that path is not part of the embedding. *)
Record Article := {
  guid : option string;
  link : option string;
  title : string;
  contentSnippet : option string;
  creator : option string;
  author : option string;
  isoDate : option string
}.

(** [(article.title + ' ' + (article.contentSnippet || '')).toLowerCase()] *)
Definition content (article : Article) : string :=
  toLowerCase
    (title article ++ " " ++ jsToString (jsOr (contentSnippet article) (Some "")))%string.

(** ** Classifier *)

Definition isMarketRelevant (article : Article) : bool :=
  existsb (fun keyword => includes (content article) (toLowerCase keyword))
          MARKET_KEYWORDS.

Record Sentiment := {
  score : Z;
  sentiment : string;
  emoji : string
}.

(** The [forEach] loops of [analyzeSentiment]: the running score grows by
    the number of matches of each keyword in turn. *)
Definition keywordScore (keywords : list string) (text : string) : nat :=
  fold_left (fun acc keyword => acc + countMatches (toLowerCase keyword) text)
            keywords 0.

Definition analyzeSentiment (article : Article) : Sentiment :=
  let text := content article in
  let positiveScore := keywordScore POSITIVE_KEYWORDS text in
  let negativeScore := keywordScore NEGATIVE_KEYWORDS text in
  let '(e, s) :=
    if negativeScore <? positiveScore then ("ðŸŸ¢", "positive")
    else if positiveScore <? negativeScore then ("ðŸ”´", "negative")
    else ("âšª", "neutral") in
  {| score := Z.of_nat positiveScore - Z.of_nat negativeScore;
     sentiment := s;
     emoji := e |}.

(** ** Cache store *)

(** An article identifier: [article.guid || article.link], a string or
    [undefined]. *)
Definition ArticleId : Type := option string.

Definition articleId_eqb (a b : ArticleId) : bool :=
  match a, b with
  | Some x, Some y => String.eqb x y
  | None, None => true
  | _, _ => false
  end.

(** [articleCache] is a JavaScript [Set]: its elements in insertion order,
    each once. *)
Definition setHas (x : ArticleId) (s : list ArticleId) : bool :=
  existsb (articleId_eqb x) s.

Definition setAdd (x : ArticleId) (s : list ArticleId) : list ArticleId :=
  if setHas x s then s else s ++ [x].

(** [titleCache] is a JavaScript [Map] from normalized title to timestamp:
    its entries in insertion order, each key once; [set] on a key that is
    present replaces its value in place. *)
Fixpoint mapSet (k : string) (v : Z) (m : list (string * Z)) : list (string * Z) :=
  match m with
  | [] => [(k, v)]
  | (k', v') :: m' =>
      if String.eqb k k' then (k, v) :: m' else (k', v') :: mapSet k v m'
  end.

Record Cache := {
  articleCache : list ArticleId;
  titleCache : list (string * Z)
}.

Definition TITLE_WINDOW : Z := 3600000.

(** The [for ... of titleCache] loop of [isSimilarTitleExists]; the result
    and the entries left in the map.  [now] is the value of [Date.now()]
    during the call, which runs without suspension. *)
Fixpoint similarLoop (now : Z) (normalizedTitle : string)
         (entries : list (string * Z)) : bool * list (string * Z) :=
  match entries with
  | [] => (false, [])
  | (cachedTitle, timestamp) :: rest =>
      if (now - timestamp >? TITLE_WINDOW)%Z then
        (* titleCache.delete(cachedTitle); continue *)
        similarLoop now normalizedTitle rest
      else if includes cachedTitle normalizedTitle
              || includes normalizedTitle cachedTitle then
        (true, (cachedTitle, timestamp) :: rest)
      else
        let '(found, rest') := similarLoop now normalizedTitle rest in
        (found, (cachedTitle, timestamp) :: rest')
  end.

Definition normalizeTitle (title : string) : string := trim (toLowerCase title).

Definition isSimilarTitleExists (now : Z) (title : string)
           (titles : list (string * Z)) : bool * list (string * Z) :=
  similarLoop now (normalizeTitle title) titles.

(** [array.slice(-n)] for [n > 0]: the last [n] elements, all of them when
    there are fewer. *)
Definition sliceLast {A : Type} (n : nat) (l : list A) : list A :=
  skipn (length l - n) l.

(** [articleCache.clear(); itemsToKeep.forEach(item => articleCache.add(item))] *)
Definition refill (itemsToKeep : list ArticleId) : list ArticleId :=
  fold_left (fun s item => setAdd item s) itemsToKeep [].

Definition cacheOverflows (ids : list ArticleId) : bool :=
  MAX_CACHE_SIZE <? length ids.

Definition addToCache (now : Z) (articleId : ArticleId) (title : string)
           (c : Cache) : Cache :=
  let ids := setAdd articleId (articleCache c) in
  let titles := mapSet (normalizeTitle title) now (titleCache c) in
  {| articleCache :=
       if cacheOverflows ids
       then refill (sliceLast (MAX_CACHE_SIZE / 2) ids)
       else ids;
     titleCache := titles |}.

(** ** The world outside and the effects of the bot *)

Inductive LogLine : Type :=
| LogChecking (at_ : string)
| LogFetching (feedUrl : string)
| LogRelevant (title : string)
| LogSent
| LogRateLimited (waitTime : Z)
| LogCacheReached (size : nat)
| LogCacheCleared (size : nat)
| ErrSending (message : string)
| ErrMaxRetries
| ErrFeed (feedUrl : string) (message : string).

Inductive Event : Type :=
| EvLog (line : LogLine)
| EvFetch (feedUrl : string)
| EvSend (message : string)
| EvSleep (ms : Z)
| EvRecord (articleId : ArticleId) (title : string).

(** The collaborators of the bot.  [sendMessage n text] is the outcome of
    the [n]-th call of [bot.sendMessage] ([None] when it resolves, the
    message of the error when it rejects); [parseURL] is the outcome of
    fetching a feed during the tick; [urlHostname s] is
    [new URL(s).hostname], [None] when the constructor throws. *)
Record World := {
  sendMessage : nat -> string -> option string;
  sendLatency : nat -> Z;
  parseURL : string -> string + list Article;
  fetchLatency : string -> Z;
  urlHostname : string -> option string;
  isoToLocaleString : string -> string;
  toLocaleString : Z -> string
}.

(** The state of a tick: the two caches, the number of calls of
    [bot.sendMessage] made so far, the time [Date.now()] reads, and the
    events observed so far.  Time passes at the suspension points (a fetch,
    a send, a wait); the code between two of them runs at one instant. *)
Record State := {
  cache : Cache;
  sent : nat;
  clock : Z;
  trace : list Event
}.

Inductive Completion (A : Type) : Type :=
| Normal (a : A)
| Throw (message : string).
Arguments Normal {A} a.
Arguments Throw {A} message.

(** Computations of the bot: they read the world, change the state and
    finish normally or by throwing. *)
Definition M (A : Type) : Type := World -> State -> Completion A * State.

Definition ret {A : Type} (a : A) : M A := fun _ s => (Normal a, s).

Definition bind {A B : Type} (m : M A) (k : A -> M B) : M B :=
  fun w s =>
    match m w s with
    | (Normal a, s') => k a w s'
    | (Throw e, s') => (Throw e, s')
    end.

Definition throw {A : Type} (message : string) : M A :=
  fun _ s => (Throw message, s).

(** [try { body } catch (error) { handler(error.message) }] *)
Definition tryCatch {A : Type} (body : M A) (handler : string -> M A) : M A :=
  fun w s =>
    match body w s with
    | (Normal a, s') => (Normal a, s')
    | (Throw e, s') => handler e w s'
    end.

Declare Scope bot_scope.
Delimit Scope bot_scope with bot.
Notation "x <- m ;; k" := (bind m (fun x => k))
  (at level 100, m at next level, right associativity) : bot_scope.
Notation "m ;;; k" := (bind m (fun _ => k))
  (at level 100, right associativity) : bot_scope.
Open Scope bot_scope.

Definition emit (e : Event) : M unit :=
  fun _ s =>
    (Normal tt,
     {| cache := cache s; sent := sent s; clock := clock s;
        trace := trace s ++ [e] |}).

Definition log (line : LogLine) : M unit := emit (EvLog line).

Definition advance (ms : Z) : M unit :=
  fun _ s =>
    (Normal tt,
     {| cache := cache s; sent := sent s; clock := (clock s + ms)%Z;
        trace := trace s |}).

(** [Date.now()] *)
Definition dateNow : M Z := fun _ s => (Normal (clock s), s).

Definition getCache : M Cache := fun _ s => (Normal (cache s), s).

Definition putCache (c : Cache) : M unit :=
  fun _ s =>
    (Normal tt,
     {| cache := c; sent := sent s; clock := clock s; trace := trace s |}).

Definition getWorld : M World := fun w s => (Normal w, s).

(** [await new Promise(resolve => setTimeout(resolve, ms))] *)
Definition sleep (ms : Z) : M unit := emit (EvSleep ms) ;;; advance ms.

(** [await bot.sendMessage(CHANNEL_USERNAME, message, ...)] *)
Definition botSendMessage (message : string) : M unit :=
  fun w s =>
    let s' := {| cache := cache s; sent := S (sent s);
                 clock := (clock s + sendLatency w (sent s))%Z;
                 trace := trace s ++ [EvSend message] |} in
    match sendMessage w (sent s) message with
    | None => (Normal tt, s')
    | Some error => (Throw error, s')
    end.

(** [await parser.parseURL(feedUrl)] *)
Definition parserParseURL (feedUrl : string) : M (list Article) :=
  fun w s =>
    let s' := {| cache := cache s; sent := sent s;
                 clock := (clock s + fetchLatency w feedUrl)%Z;
                 trace := trace s ++ [EvFetch feedUrl] |} in
    match parseURL w feedUrl with
    | inr items => (Normal items, s')
    | inl error => (Throw error, s')
    end.

Fixpoint forEach {A : Type} (body : A -> M unit) (l : list A) : M unit :=
  match l with
  | [] => ret tt
  | x :: rest => body x ;;; forEach body rest
  end.

(** ** Delivery formatter *)

Definition nl : string := String (ascii_of_nat 10) EmptyString.
Definition dquote : string := String (ascii_of_nat 34) EmptyString.

(** [s.charAt(0).toUpperCase() + s.slice(1)] *)
Definition capitalize (s : string) : string :=
  match s with
  | EmptyString => EmptyString
  | String c rest => String (toUpperChar c) rest
  end.

(** [article.creator || article.author || new URL(link).hostname]: the
    constructor runs, and may throw, only when both fields are falsy. *)
Definition sourceOf (article : Article) : M string :=
  let named := jsOr (creator article) (author article) in
  if truthy named then ret (jsToString named)
  else
    w <- getWorld ;;
    match urlHostname w (jsToString (link article)) with
    | Some hostname => ret hostname
    | None => throw "Invalid URL"
    end.

Definition publishedOf (article : Article) : M string :=
  w <- getWorld ;;
  if truthy (isoDate article)
  then ret (isoToLocaleString w (jsToString (isoDate article)))
  else (t <- dateNow ;; ret (toLocaleString w t)).

Definition formatMessage (article : Article) (s : Sentiment) : M string :=
  let title := trim (title article) in
  let link := jsToString (link article) in
  source <- sourceOf article ;;
  date <- publishedOf article ;;
  ret (nl ++ emoji s ++ " <b>" ++ title ++ "</b>" ++ nl
       ++ nl
       ++ "Source: " ++ source ++ nl
       ++ "Published: " ++ date ++ nl
       ++ "Sentiment: " ++ capitalize (sentiment s) ++ nl
       ++ nl
       ++ "<a href=" ++ dquote ++ link ++ dquote ++ ">Read more</a>" ++ nl)%string.

(** ** Dispatch *)

Definition maxRetries : nat := 3.
Definition DEFAULT_WAIT : Z := 30000.

Fixpoint takeDigits (s : string) : string :=
  match s with
  | EmptyString => EmptyString
  | String c s' => if isDigit c then String c (takeDigits s') else EmptyString
  end.

Fixpoint dropChars (n : nat) (s : string) : string :=
  match n, s with
  | S n', String _ s' => dropChars n' s'
  | _, _ => s
  end.

(** [parseInt] of a non-empty run of decimal digits, as an exact integer;
    the number JavaScript computes is the same up to 2^53. *)
Fixpoint parseDigits (acc : Z) (digits : string) : Z :=
  match digits with
  | EmptyString => acc
  | String c rest => parseDigits (acc * 10 + Z.of_nat (charCode c - 48))%Z rest
  end.

Definition parseInt (digits : string) : Z := parseDigits 0%Z digits.

(** The capture group of the leftmost match of [/retry after (\d+)/i], if
    the expression matches. *)
Fixpoint retryAfterDigits (s : string) : option string :=
  let here :=
    if prefix "retry after " (toLowerCase s)
    then match takeDigits (dropChars 12 s) with
         | EmptyString => None
         | digits => Some digits
         end
    else None in
  match here with
  | Some digits => Some digits
  | None =>
      match s with
      | EmptyString => None
      | String _ s' => retryAfterDigits s'
      end
  end.

(** [match ? parseInt(match[1]) * 1000 : 30000] *)
Definition waitTimeOf (error : string) : Z :=
  match retryAfterDigits error with
  | Some digits => (parseInt digits * 1000)%Z
  | None => DEFAULT_WAIT
  end.

Definition isRateLimit (error : string) : bool := includes error "429".

Inductive LoopControl : Type := Return | Continue.

(** The [while (retries < maxRetries)] loop of [sendToTelegram], by the
    number of attempts left, [maxRetries - retries]. *)
Fixpoint sendLoop (attemptsLeft : nat) (message : string) : M unit :=
  match attemptsLeft with
  | O => log ErrMaxRetries
  | S attemptsLeft' =>
      control <-
        tryCatch
          (botSendMessage message ;;;
           log LogSent ;;;
           ret Return)
          (fun error =>
             if isRateLimit error then
               let waitTime := waitTimeOf error in
               log (LogRateLimited waitTime) ;;;
               sleep waitTime ;;;
               ret Continue
             else
               log (ErrSending error) ;;;
               ret Return) ;;
      match control with
      | Return => ret tt
      | Continue => sendLoop attemptsLeft' message
      end
  end.

Definition sendToTelegram (message : string) : M unit :=
  sendLoop maxRetries message.

(** ** Poll loop *)

Definition isSimilarTitleExistsM (title : string) : M bool :=
  c <- getCache ;;
  now <- dateNow ;;
  let '(found, titles) := isSimilarTitleExists now title (titleCache c) in
  putCache {| articleCache := articleCache c; titleCache := titles |} ;;;
  ret found.

Definition addToCacheM (articleId : ArticleId) (title : string) : M unit :=
  emit (EvRecord articleId title) ;;;
  c <- getCache ;;
  now <- dateNow ;;
  let ids := setAdd articleId (articleCache c) in
  putCache (addToCache now articleId title c) ;;;
  if cacheOverflows ids then
    c' <- getCache ;;
    log (LogCacheReached (length ids)) ;;;
    log (LogCacheCleared (length (articleCache c')))
  else ret tt.

(** The body of the loop over [feed.items]. *)
Definition processArticle (article : Article) : M unit :=
  let articleId := jsOr (guid article) (link article) in
  c <- getCache ;;
  if setHas articleId (articleCache c) then ret tt
  else
    similar <- isSimilarTitleExistsM (title article) ;;
    if similar then ret tt
    else if isMarketRelevant article then
      log (LogRelevant (title article)) ;;;
      let sentiment := analyzeSentiment article in
      message <- formatMessage article sentiment ;;
      sendToTelegram message ;;;
      addToCacheM articleId (title article)
    else ret tt.

(** The body of the loop over [RSS_FEEDS]. *)
Definition checkFeed (feedUrl : string) : M unit :=
  tryCatch
    (log (LogFetching feedUrl) ;;;
     items <- parserParseURL feedUrl ;;
     forEach processArticle items)
    (fun error => log (ErrFeed feedUrl error)).

Definition checkNewsFeeds : M unit :=
  w <- getWorld ;;
  t <- dateNow ;;
  log (LogChecking (toLocaleString w t)) ;;;
  forEach checkFeed RSS_FEEDS.

(** Running a computation from a state. *)
Definition run {A : Type} (m : M A) (w : World) (s : State) : Completion A * State :=
  m w s.

(** The events a computation adds to the trace. *)
Definition emitted {A : Type} (m : M A) (w : World) (s : State) : list Event :=
  skipn (length (trace s)) (trace (snd (run m w s))).

Definition isRecord (e : Event) : bool :=
  match e with EvRecord _ _ => true | _ => false end.

Definition isSend (e : Event) : bool :=
  match e with EvSend _ => true | _ => false end.

Definition isSleep (e : Event) : bool :=
  match e with EvSleep _ => true | _ => false end.

Definition countRecords (evs : list Event) : nat := length (filter isRecord evs).
Definition countSends (evs : list Event) : nat := length (filter isSend evs).

(** ** The classifier as the specification words it *)

(** The text of an entry: its title and its snippet, the snippet empty
    when absent, joined by one space as [content] joins them. *)
Definition titleAndSnippet (article : Article) : string :=
  (title article ++ " " ++
   match contentSnippet article with
   | Some snippet => snippet
   | None => EmptyString
   end)%string.

(** [keyword] occurs in [text] as a substring, up to the case of
    letters. *)
Definition occursIgnoringCase (keyword text : string) : Prop :=
  exists pre mid post,
    text = (pre ++ mid ++ post)%string /\ toLowerCase mid = toLowerCase keyword.

(** [keyword] occurs in [text] at index [i] between two word boundaries:
    the characters from [i] are those of the keyword, and on each side of
    the occurrence exactly one of the two neighbouring positions holds a
    word character. *)
Definition charBefore (text : string) (i : nat) : option ascii :=
  match i with
  | O => None
  | S j => String.get j text
  end.

Definition occursWordBoundedAt (keyword text : string) (i : nat) : bool :=
  String.eqb (substring i (String.length keyword) text) keyword
  && wordBoundary (charBefore text i) (String.get i text)
  && wordBoundary (charBefore text (i + String.length keyword))
                  (String.get (i + String.length keyword) text).

(** The number of word-bounded occurrences of [keyword] in [text]. *)
Definition wordBoundedOccurrences (keyword text : string) : nat :=
  length (filter (occursWordBoundedAt keyword text)
                 (seq 0 (S (String.length text)))).

Definition totalOccurrences (keywords : list string) (text : string) : nat :=
  list_sum (map (fun keyword => wordBoundedOccurrences keyword text) keywords).

(** A keyword made of lower-case letters only. *)
Fixpoint allLower (s : string) : bool :=
  match s with
  | EmptyString => true
  | String c s' => isLower c && allLower s'
  end.

Definition plainKeyword (keyword : string) : bool :=
  allLower keyword && negb (String.eqb keyword EmptyString).

(** ** The caches as the specification words them *)

(** [a] is a contiguous substring of [b]. *)
Definition isSubstringOf (a b : string) : Prop :=
  exists pre post, b = (pre ++ a ++ post)%string.

(** An entry of [titleCache] is stale at [now] when it is older than the
    one-hour window. *)
Definition isStale (now : Z) (entry : string * Z) : bool :=
  (now - snd entry >? TITLE_WINDOW)%Z.

Definition isFresh (now : Z) (entry : string * Z) : bool :=
  negb (isStale now entry).

(** The containment test of [isSimilarTitleExists], in both directions. *)
Definition similarTitles (cachedTitle normalizedTitle : string) : bool :=
  includes cachedTitle normalizedTitle || includes normalizedTitle cachedTitle.

(** ** Sample data *)

(** A two-character identifier for each number below 65536. *)
Definition sampleId (n : nat) : ArticleId :=
  Some (String (ascii_of_nat (n / 256)) (String (ascii_of_nat (n mod 256)) EmptyString)).

Definition sampleIds (n : nat) : list ArticleId := map sampleId (seq 0 n).

Fixpoint nodupb (l : list ArticleId) : bool :=
  match l with
  | [] => true
  | x :: l' => negb (setHas x l') && nodupb l'
  end.

(** ** Dispatch as the specification words it *)

(** The [i]-th call of [bot.sendMessage] fails with a rate-limit error. *)
Definition rateLimitedAt (w : World) (message : string) (i : nat) : Prop :=
  exists error, sendMessage w i message = Some error /\ isRateLimit error = true.

(** What a rate-limited attempt adds to the trace: the attempt, the log
    line and the wait before the next attempt. *)
Definition retryBlock (w : World) (message : string) (i : nat) : list Event :=
  match sendMessage w i message with
  | Some error =>
      [EvSend message;
       EvLog (LogRateLimited (waitTimeOf error));
       EvSleep (waitTimeOf error)]
  | None => []
  end.

(** The last events of a dispatch that made [k] rate-limited attempts
    before, with [ceiling] attempts allowed: a delivery, a failure that is
    not retried, or the abandonment at the ceiling. *)
Inductive DispatchEnd (w : World) (message : string) (next k ceiling : nat)
  : list Event -> Prop :=
| EndDelivered :
    k < ceiling ->
    sendMessage w next message = None ->
    DispatchEnd w message next k ceiling [EvSend message; EvLog LogSent]
| EndFailed (error : string) :
    k < ceiling ->
    sendMessage w next message = Some error ->
    isRateLimit error = false ->
    DispatchEnd w message next k ceiling
                [EvSend message; EvLog (ErrSending error)]
| EndAbandoned :
    k = ceiling ->
    DispatchEnd w message next k ceiling [EvLog ErrMaxRetries].

(** ** The poll loop as the specification words it *)

(** The log lines [addToCache] writes when it evicts. *)
Definition cacheLogs (now : Z) (articleId : ArticleId) (title : string)
           (c : Cache) : list Event :=
  let ids := setAdd articleId (articleCache c) in
  if cacheOverflows ids then
    [EvLog (LogCacheReached (length ids));
     EvLog (LogCacheCleared (length (articleCache (addToCache now articleId title c))))]
  else [].

(** The state in which an entry that is neither seen nor similar reaches
    the relevance filter: the similarity check has purged the titles it
    scanned. *)
Definition afterDedup (title : string) (s : State) : State :=
  {| cache :=
       {| articleCache := articleCache (cache s);
          titleCache :=
            snd (isSimilarTitleExists (clock s) title (titleCache (cache s))) |};
     sent := sent s;
     clock := clock s;
     trace := trace s |}.

(** An entry reaches the relevance filter when the duplicate checks let
    it through. *)
Definition reachesFilter (article : Article) (s : State) : Prop :=
  setHas (jsOr (guid article) (link article)) (articleCache (cache s)) = false /\
  fst (isSimilarTitleExists (clock s) (title article) (titleCache (cache s))) = false.

(** The state after the log line and the fetch that open the processing
    of a feed. *)
Definition afterFetch (w : World) (feedUrl : string) (s : State) : State :=
  {| cache := cache s;
     sent := sent s;
     clock := (clock s + fetchLatency w feedUrl)%Z;
     trace := trace s ++ [EvLog (LogFetching feedUrl); EvFetch feedUrl] |}.

(** ** Sample worlds *)

Fixpoint afterScheme (s : string) : option string :=
  if prefix "://" s then Some (dropChars 3 s)
  else match s with
       | EmptyString => None
       | String _ s' => afterScheme s'
       end.

Fixpoint upToSlash (s : string) : string :=
  match s with
  | EmptyString => EmptyString
  | String c s' => if Ascii.eqb c "/" then EmptyString else String c (upToSlash s')
  end.

(** A stand-in for [new URL(s).hostname] on the sample inputs: the text
    between [://] and the next slash; a string without [://], such as
    ["undefined"], is not a URL. *)
Definition sampleHostname (s : string) : option string :=
  option_map upToSlash (afterScheme s).

Definition sampleWorld (respond : nat -> string -> option string)
           (feeds : string -> string + list Article) : World :=
  {| sendMessage := respond;
     sendLatency := fun _ => 150%Z;
     parseURL := feeds;
     fetchLatency := fun _ => 400%Z;
     urlHostname := sampleHostname;
     isoToLocaleString := fun iso => iso;
     toLocaleString := fun _ => "11/2/2026, 9:00:00 AM" |}.

Definition alwaysDelivered : nat -> string -> option string :=
  fun _ _ => None.

Definition chatNotFound : nat -> string -> option string :=
  fun _ _ => Some "ETELEGRAM: 400 Bad Request: chat not found".

Definition initialState : State :=
  {| cache := {| articleCache := []; titleCache := [] |};
     sent := 0;
     clock := 1793610000000%Z;
     trace := [] |}.

Definition fedArticle : Article :=
  {| guid := Some "guid-1";
     link := Some "https://example.com/fed-raises-rates";
     title := "Fed raises interest rates";
     contentSnippet := Some "";
     creator := Some "Reuters";
     author := None;
     isoDate := None |}.

Definition rallyArticle : Article :=
  {| guid := Some "guid-2";
     link := Some "https://example.com/stocks-surge";
     title := "Stocks surge as rally continues";
     contentSnippet := None;
     creator := Some "Reuters";
     author := None;
     isoDate := None |}.

(** A relevant entry without creator, author or link. *)
Definition unlinkedArticle : Article :=
  {| guid := Some "guid-3";
     link := None;
     title := "Nifty and Sensex plunge";
     contentSnippet := None;
     creator := None;
     author := None;
     isoDate := None |}.

Definition firstFeedOnly (items : list Article) : string -> string + list Article :=
  fun feedUrl =>
    if String.eqb feedUrl "https://finance.yahoo.com/news/rssindex"
    then inr items else inr [].

Definition isPacing (e : Event) : bool := isSend e || isSleep e || isRecord e.

(** ** The trace of a tick *)

(** Events that are neither part of a dispatch nor a recording. *)
Definition isQuiet (e : Event) : bool :=
  match e with
  | EvFetch _ => true
  | EvLog (LogChecking _) | EvLog (LogFetching _) | EvLog (LogRelevant _)
  | EvLog (LogCacheReached _) | EvLog (LogCacheCleared _)
  | EvLog (ErrFeed _ _) => true
  | _ => false
  end.

(** The shape of what a tick adds to the trace: quiet events, and
    dispatches each followed at once by the recording of its entry. *)
Inductive TickTrace (w : World) : list Event -> Prop :=
| TickNil : TickTrace w []
| TickQuiet (e : Event) (evs : list Event) :
    isQuiet e = true -> TickTrace w evs -> TickTrace w (e :: evs)
| TickDispatch (message : string) (first k : nat) (final : list Event)
               (articleId : ArticleId) (title : string) (evs : list Event) :
    (forall i, first <= i < first + k -> rateLimitedAt w message i) ->
    DispatchEnd w message (first + k) k 3 final ->
    TickTrace w evs ->
    TickTrace w (flat_map (retryBlock w message) (seq first k)
                 ++ final ++ EvRecord articleId title :: evs).

(** A computation that extends the trace by events of that shape. *)
Definition Traced {A : Type} (m : M A) : Prop :=
  forall (w : World) (s : State),
  exists evs, trace (snd (run m w s)) = trace s ++ evs /\ TickTrace w evs.

(** ** Further vocabulary *)

(** A string of white space only. *)
Fixpoint allSpace (s : string) : bool :=
  match s with
  | EmptyString => true
  | String c s' => isSpace c && allSpace s'
  end.

(** The keys of [titleCache], in insertion order. *)
Definition titleKeys (titles : list (string * Z)) : list string := map fst titles.

Definition hasKey (k : string) (titles : list (string * Z)) : bool :=
  existsb (String.eqb k) (titleKeys titles).

(** A run of decimal digits. *)
Fixpoint allDigits (s : string) : bool :=
  match s with
  | EmptyString => true
  | String c s' => isDigit c && allDigits s'
  end.

Definition startsWithDigit (s : string) : bool :=
  match s with
  | EmptyString => false
  | String c _ => isDigit c
  end.

Definition isFetch (e : Event) : bool :=
  match e with EvFetch _ => true | _ => false end.

(** What the caches are expected to satisfy between two operations: the
    seen set holds each identifier once and at most [MAX_CACHE_SIZE] of
    them, and the recent titles hold each normalized title once. *)
Definition cacheInvariant (c : Cache) : Prop :=
  NoDup (articleCache c) /\
  length (articleCache c) <= MAX_CACHE_SIZE /\
  NoDup (titleKeys (titleCache c)).

(** A string of ASCII characters (codes below 128), on which
    [toLowerCase] and [trim] are those of JavaScript. *)
Fixpoint isAsciiString (s : string) : bool :=
  match s with
  | EmptyString => true
  | String c s' => (charCode c <? 128) && isAsciiString s'
  end.

Definition isSendOrRecord (e : Event) : bool := isSend e || isRecord e.

(** Sends and recordings in groups: one to three calls of
    [bot.sendMessage] with one message, then one call of [addToCache]. *)
Inductive DispatchGroups : list Event -> Prop :=
| GroupsNil : DispatchGroups []
| GroupsCons (message : string) (n : nat) (articleId : ArticleId)
             (title : string) (rest : list Event) :
    1 <= n <= 3 ->
    DispatchGroups rest ->
    DispatchGroups (repeat (EvSend message) n
                    ++ EvRecord articleId title :: rest).

(* ================================================================== *)
(** * Part II: properties                                              *)
(* ================================================================== *)

(** ** Strings *)

Lemma prefix_iff (k s : string) :
  prefix k s = true <-> exists post, s = (k ++ post)%string.
Proof.
  revert s; induction k as [|c k IH]; intros s.
  - destruct s; simpl; split; eauto.
  - destruct s as [|d s]; simpl.
    + split; [discriminate | intros [post H]; discriminate].
    + destruct (ascii_dec c d) as [->|Hne].
      * rewrite IH. split; intros [post H]; exists post.
        -- now rewrite H.
        -- now inversion H.
      * split; [discriminate | intros [post H]; inversion H; congruence].
Qed.

Lemma append_assoc (a b c : string) :
  ((a ++ b) ++ c = a ++ (b ++ c))%string.
Proof. induction a; simpl; congruence. Qed.

Lemma append_empty_r (a : string) : (a ++ "")%string = a.
Proof. induction a; simpl; congruence. Qed.

Lemma append_length (a b : string) :
  String.length (a ++ b) = String.length a + String.length b.
Proof. induction a; simpl; congruence. Qed.

Lemma includes_iff (s k : string) :
  includes s k = true <-> exists pre post, s = (pre ++ k ++ post)%string.
Proof.
  induction s as [|c s IH].
  - cbn [includes]. rewrite orb_false_r, prefix_iff. split.
    + intros [post H]. exists EmptyString, post. exact H.
    + intros [pre [post H]]. destruct pre; simpl in H; [eauto | discriminate].
  - cbn [includes]. rewrite orb_true_iff, IH, prefix_iff. split.
    + intros [[post H] | [pre [post H]]].
      * exists EmptyString, post. exact H.
      * exists (String c pre), post. simpl. now rewrite H.
    + intros [pre [post H]]. destruct pre as [|d pre]; simpl in H.
      * left. eauto.
      * right. inversion H. eauto.
Qed.

Lemma toLowerCase_app (a b : string) :
  toLowerCase (a ++ b) = (toLowerCase a ++ toLowerCase b)%string.
Proof. induction a; simpl; congruence. Qed.

Lemma toLowerCase_split (t a b : string) :
  toLowerCase t = (a ++ b)%string ->
  exists t1 t2, t = (t1 ++ t2)%string /\ toLowerCase t1 = a /\ toLowerCase t2 = b.
Proof.
  revert t; induction a as [|c a IH]; intros t H.
  - exists EmptyString, t. auto.
  - destruct t as [|d t]; simpl in H; [discriminate|].
    inversion H as [[Hc Ht]]. destruct (IH _ Ht) as (t1 & t2 & -> & <- & <-).
    exists (String d t1), t2. auto.
Qed.

(** [includes] on lower-cased operands is occurrence up to case. *)
Lemma includes_lower_iff (text keyword : string) :
  includes (toLowerCase text) (toLowerCase keyword) = true <->
  occursIgnoringCase keyword text.
Proof.
  rewrite includes_iff. unfold occursIgnoringCase. split.
  - intros (pre & post & H).
    apply toLowerCase_split in H. destruct H as (t1 & t23 & -> & <- & H).
    apply toLowerCase_split in H. destruct H as (t2 & t3 & -> & H & <-).
    eauto.
  - intros (pre & mid & post & -> & H).
    exists (toLowerCase pre), (toLowerCase post).
    now rewrite !toLowerCase_app, H.
Qed.

Lemma content_titleAndSnippet (article : Article) :
  content article = toLowerCase (titleAndSnippet article).
Proof.
  unfold content, titleAndSnippet, jsOr.
  destruct (contentSnippet article) as [[|c s]|]; reflexivity.
Qed.

(** ** Classifier *)

(** C5: [isMarketRelevant] holds exactly when some keyword of
    [MARKET_KEYWORDS] occurs, up to the case of letters and without regard
    to word boundaries, as a substring of the title and snippet of the entry
    (joined by one space, an absent snippet being empty); the entry titled
    "Fed raises interest rates" with an empty snippet is relevant. *)
Theorem isMarketRelevant_iff_keyword_occurs :
  (forall article : Article,
      isMarketRelevant article = true <->
      exists keyword, In keyword MARKET_KEYWORDS /\
                      occursIgnoringCase keyword (titleAndSnippet article))
  /\ isMarketRelevant
       {| guid := None; link := None; title := "Fed raises interest rates";
          contentSnippet := Some ""; creator := None; author := None;
          isoDate := None |} = true.
Proof.
  split; [|reflexivity].
  intros article. unfold isMarketRelevant.
  rewrite existsb_exists, content_titleAndSnippet.
  split; intros (keyword & Hin & H); exists keyword; split; auto;
    now apply includes_lower_iff.
Qed.

(** ** Word-bounded matching *)

Lemma get_head (s : string) : String.get 0 s = head s.
Proof. destruct s; reflexivity. Qed.

Lemma get_app_l (a b : string) (j : nat) :
  j < String.length a -> String.get j (a ++ b) = String.get j a.
Proof. intros H. symmetry. now apply append_correct1. Qed.

Lemma get_app_r (a b : string) (j : nat) :
  String.get (String.length a + j) (a ++ b) = String.get j b.
Proof. rewrite Nat.add_comm. symmetry. apply append_correct2. Qed.

Lemma substring_app_skip (pre s : string) (n : nat) :
  substring (String.length pre) n (pre ++ s) = substring 0 n s.
Proof. induction pre; simpl; auto. Qed.

Lemma eqb_substring_prefix (kw s : string) :
  String.eqb (substring 0 (String.length kw) s) kw = prefix kw s.
Proof.
  apply eq_true_iff_eq. rewrite String.eqb_eq. symmetry. apply prefix_correct.
Qed.

Lemma charBefore_app_mid (pre kw rest : string) (j : nat) :
  0 < j <= String.length kw ->
  charBefore (pre ++ kw ++ rest) (String.length pre + j) = charBefore kw j.
Proof.
  intros [H0 Hj]. destruct j as [|j]; [lia|].
  rewrite Nat.add_succ_r. cbn [charBefore].
  rewrite get_app_r. apply get_app_l. lia.
Qed.

Lemma get_app_end (pre kw rest : string) :
  String.get (String.length pre + String.length kw) (pre ++ kw ++ rest) = head rest.
Proof.
  rewrite get_app_r.
  replace (String.length kw) with (String.length kw + 0) by lia.
  now rewrite get_app_r, get_head.
Qed.

Lemma matchLiteral_Some (kw : string) :
  forall prev s last rest,
    matchLiteral prev kw s = Some (last, rest) ->
    s = (kw ++ rest)%string /\
    last = match kw with
           | EmptyString => prev
           | _ => charBefore kw (String.length kw)
           end.
Proof.
  induction kw as [|k kw IH]; intros prev s last rest H; simpl in H.
  - inversion H. auto.
  - destruct s as [|c s]; [discriminate|].
    destruct (Ascii.eqb_spec k c) as [->|]; [|discriminate].
    apply IH in H. destruct H as [-> ->]. split; [reflexivity|].
    destruct kw; reflexivity.
Qed.

Lemma matchLiteral_None (kw : string) :
  forall prev s, matchLiteral prev kw s = None -> prefix kw s = false.
Proof.
  induction kw as [|k kw IH]; intros prev s H; simpl in H; [discriminate|].
  destruct s as [|c s]; [reflexivity|]. simpl.
  destruct (Ascii.eqb_spec k c) as [->|Hne].
  - destruct (ascii_dec c c); [eauto | congruence].
  - destruct (ascii_dec k c); congruence.
Qed.

Lemma allLower_get (kw : string) (j : nat) :
  allLower kw = true -> j < String.length kw ->
  isWordOpt (String.get j kw) = true.
Proof.
  revert j; induction kw as [|c kw IH]; intros j Hl Hj; simpl in *; [lia|].
  apply andb_true_iff in Hl. destruct Hl as [Hc Hl].
  destruct j as [|j].
  - simpl. unfold isWordChar. now rewrite Hc, orb_true_r.
  - apply IH; [assumption | lia].
Qed.

Lemma filter_none {A : Type} (f : A -> bool) (l : list A) :
  (forall x, In x l -> f x = false) -> filter f l = [].
Proof.
  induction l as [|x l IH]; intros H; simpl; [reflexivity|].
  rewrite (H x) by (left; reflexivity). apply IH. intros y Hy. apply H. now right.
Qed.

(** The occurrence test at the index where a suffix starts, in terms of
    the anchored matcher. *)
Lemma occursWordBoundedAt_matchWordAt (kw pre s : string) :
  kw <> EmptyString ->
  occursWordBoundedAt kw (pre ++ s) (String.length pre) =
  match matchWordAt (charBefore (pre ++ s) (String.length pre)) kw s with
  | Some _ => true
  | None => false
  end.
Proof.
  intros Hkw. unfold occursWordBoundedAt, matchWordAt.
  rewrite substring_app_skip, eqb_substring_prefix.
  replace (String.get (String.length pre) (pre ++ s)) with (head s)
    by (rewrite <- get_head, <- (get_app_r pre s 0), Nat.add_0_r; reflexivity).
  set (prev := charBefore (pre ++ s) (String.length pre)).
  destruct (matchLiteral prev kw s) as [[last rest]|] eqn:Hm.
  - apply matchLiteral_Some in Hm. destruct Hm as [-> ->].
    assert (Hp : prefix kw (kw ++ rest) = true) by (apply prefix_iff; eauto).
    rewrite Hp, get_app_end, charBefore_app_mid.
    + destruct kw; [congruence|].
      simpl.
      repeat match goal with
             | |- context [wordBoundary ?a ?b] => destruct (wordBoundary a b)
             end; reflexivity.
    + destruct kw; [congruence | simpl; lia].
  - apply matchLiteral_None in Hm. rewrite Hm. simpl.
    destruct (wordBoundary prev (head s)); reflexivity.
Qed.

(** Inside an occurrence of a keyword of letters no other occurrence
    starts: both neighbours of such an index are word characters. *)
Lemma no_occurrence_inside (kw pre rest : string) (j : nat) :
  allLower kw = true -> 0 < j < String.length kw ->
  occursWordBoundedAt kw (pre ++ kw ++ rest) (String.length pre + j) = false.
Proof.
  intros Hl [H0 Hj]. unfold occursWordBoundedAt.
  assert (Hb : wordBoundary (charBefore (pre ++ kw ++ rest) (String.length pre + j))
                 (String.get (String.length pre + j) (pre ++ kw ++ rest)) = false).
  { rewrite charBefore_app_mid by lia.
    rewrite get_app_r, get_app_l by lia.
    destruct j as [|j]; [lia|]. cbn [charBefore]. unfold wordBoundary.
    rewrite !allLower_get by (assumption || lia). reflexivity. }
  rewrite Hb. now rewrite andb_false_r.
Qed.

Lemma matchAllFrom_occurrences (kw : string) :
  plainKeyword kw = true ->
  forall fuel pre s,
    String.length s < fuel ->
    matchAllFrom fuel (charBefore (pre ++ s) (String.length pre)) kw s =
    length (filter (occursWordBoundedAt kw (pre ++ s))
                   (seq (String.length pre) (S (String.length s)))).
Proof.
  intros Hplain. unfold plainKeyword in Hplain.
  apply andb_true_iff in Hplain. destruct Hplain as [Hl Hne].
  assert (Hkw : kw <> EmptyString).
  { intros ->. discriminate. }
  induction fuel as [|fuel IH]; intros pre s Hfuel; [lia|].
  cbn [matchAllFrom].
  pose proof (occursWordBoundedAt_matchWordAt kw pre s Hkw) as Hocc.
  destruct (matchWordAt (charBefore (pre ++ s) (String.length pre)) kw s)
    as [[last rest]|] eqn:Hm.
  - (* a match: the search resumes after it *)
    unfold matchWordAt in Hm.
    destruct (wordBoundary _ (head s)); [|discriminate].
    destruct (matchLiteral _ kw s) as [[last' rest']|] eqn:Hlit; [|discriminate].
    destruct (wordBoundary last' (head rest')); [|discriminate].
    inversion Hm; subst last' rest'. clear Hm.
    apply matchLiteral_Some in Hlit. destruct Hlit as [Hs Hlast].
    destruct kw as [|k kw']; [congruence|].
    set (kw := String k kw') in *.
    subst s.
    assert (Hlen : 0 < String.length kw) by (simpl; lia).
    rewrite append_length in Hfuel |- *.
    replace (S (String.length kw + String.length rest))
      with (String.length kw + S (String.length rest)) by lia.
    rewrite seq_app, filter_app, length_app.
    (* the indices of the occurrence itself *)
    destruct (String.length kw) as [|n] eqn:Hn; [lia|].
    cbn [seq filter]. rewrite Hocc. cbn [length].
    rewrite (filter_none _ (seq (S (String.length pre)) n)).
    2:{ intros x Hx. apply in_seq in Hx.
        replace x with (String.length pre + (x - String.length pre)) by lia.
        apply no_occurrence_inside; [assumption | lia]. }
    cbn [length plus]. f_equal.
    (* the rest of the input *)
    specialize (IH (pre ++ kw)%string rest).
    rewrite append_assoc, append_length, Hn in IH.
    assert (Hprev : last = charBefore (pre ++ kw ++ rest) (String.length pre + S n)).
    { rewrite Hlast, charBefore_app_mid by lia. rewrite <- Hn. reflexivity. }
    rewrite Hprev. apply IH. lia.
  - (* no match at this index *)
    destruct s as [|c s].
    + cbn [String.length seq filter]. rewrite Hocc. reflexivity.
    + cbn [String.length seq filter]. rewrite Hocc.
      specialize (IH (pre ++ String c "")%string s).
      rewrite append_assoc, append_length in IH. cbn in IH.
      rewrite Nat.add_1_r in IH.
      assert (Hprev : Some c = charBefore (pre ++ String c s) (S (String.length pre))).
      { rewrite <- Nat.add_1_r.
        change (pre ++ String c s)%string with (pre ++ String c "" ++ s)%string.
        rewrite (charBefore_app_mid pre (String c "") s 1) by (simpl; lia).
        reflexivity. }
      rewrite Hprev. apply IH. simpl in Hfuel. lia.
Qed.

(** The matches of [/\bkw\b/g] are the word-bounded occurrences. *)
Lemma countMatches_occurrences (kw text : string) :
  plainKeyword kw = true ->
  countMatches kw text = wordBoundedOccurrences kw text.
Proof.
  intros H. unfold countMatches, wordBoundedOccurrences.
  apply (matchAllFrom_occurrences kw H (S (String.length text)) EmptyString text).
  lia.
Qed.

Lemma allLower_toLowerCase (kw : string) :
  allLower kw = true -> toLowerCase kw = kw.
Proof.
  induction kw as [|c kw IH]; simpl; intros H; [reflexivity|].
  apply andb_true_iff in H. destruct H as [Hc Hl]. rewrite (IH Hl). f_equal.
  unfold toLowerChar, isUpper, isLower, inRange in *.
  destruct (65 <=? charCode c) eqn:E1; destruct (charCode c <=? 90) eqn:E2;
    try reflexivity.
  apply andb_true_iff in Hc. destruct Hc as [Hc _].
  apply Nat.leb_le in Hc, E2. lia.
Qed.

Lemma fold_left_add_from {A : Type} (f : A -> nat) (l : list A) (acc : nat) :
  fold_left (fun a x => a + f x) l acc = acc + list_sum (map f l).
Proof.
  revert acc; induction l as [|x l IH]; intros acc; simpl; [lia|].
  rewrite IH. lia.
Qed.

Lemma keywordScore_occurrences (keywords : list string) (text : string) :
  forallb plainKeyword keywords = true ->
  keywordScore keywords text = totalOccurrences keywords text.
Proof.
  intros H. unfold keywordScore, totalOccurrences.
  rewrite fold_left_add_from. simpl. f_equal.
  apply map_ext_in. intros kw Hin.
  rewrite forallb_forall in H. specialize (H kw Hin).
  assert (Hl : allLower kw = true).
  { unfold plainKeyword in H. now apply andb_true_iff in H. }
  rewrite (allLower_toLowerCase kw Hl).
  now apply countMatches_occurrences.
Qed.

Lemma sentiment_keywords_plain :
  forallb plainKeyword POSITIVE_KEYWORDS = true /\
  forallb plainKeyword NEGATIVE_KEYWORDS = true.
Proof. split; vm_compute; reflexivity. Qed.

(** Two word-bounded occurrences of a keyword of letters never overlap. *)
Lemma wordBounded_occurrences_disjoint (kw text : string) (i j : nat) :
  plainKeyword kw = true ->
  occursWordBoundedAt kw text i = true ->
  occursWordBoundedAt kw text j = true ->
  i < j -> i + String.length kw <= j.
Proof.
  intros Hplain Hi Hj Hlt.
  destruct (le_lt_dec (i + String.length kw) j) as [|Hin]; [assumption|exfalso].
  unfold plainKeyword in Hplain. apply andb_true_iff in Hplain.
  destruct Hplain as [Hl _].
  assert (Hsub : substring i (String.length kw) text = kw).
  { unfold occursWordBoundedAt in Hi.
    apply andb_true_iff in Hi. destruct Hi as [Hi _].
    apply andb_true_iff in Hi. destruct Hi as [Hi _].
    now apply String.eqb_eq. }
  assert (Hget : forall d, d < String.length kw ->
                           String.get (i + d) text = String.get d kw).
  { intros d Hd. rewrite Nat.add_comm.
    rewrite <- (substring_correct1 text i (String.length kw) d Hd).
    now rewrite Hsub. }
  unfold occursWordBoundedAt in Hj.
  apply andb_true_iff in Hj. destruct Hj as [Hj _].
  apply andb_true_iff in Hj. destruct Hj as [_ Hj].
  destruct j as [|j]; [lia|]. cbn [charBefore] in Hj.
  replace j with (i + (j - i)) in Hj at 1 by lia.
  replace (S j) with (i + (S j - i)) in Hj by lia.
  rewrite !Hget in Hj by lia.
  unfold wordBoundary in Hj.
  rewrite !allLower_get in Hj by (assumption || lia). discriminate.
Qed.

(** C4: the score of [analyzeSentiment] is the number of word-bounded
    occurrences of the positive keywords, less that of the negative
    keywords, in the lower-cased title and snippet of the entry (joined by
    one space, an absent snippet being empty); the label is positive,
    negative or neutral exactly when the score is above, below or equal to
    zero; the entry titled "Stocks surge as rally continues" with an empty
    snippet scores 2 and is labelled positive. *)
Theorem analyzeSentiment_score_and_label :
  (forall article : Article,
      let text := toLowerCase (titleAndSnippet article) in
      let result := analyzeSentiment article in
      score result =
        (Z.of_nat (totalOccurrences POSITIVE_KEYWORDS text)
         - Z.of_nat (totalOccurrences NEGATIVE_KEYWORDS text))%Z
      /\ (sentiment result = "positive" <-> (score result > 0)%Z)
      /\ (sentiment result = "negative" <-> (score result < 0)%Z)
      /\ (sentiment result = "neutral" <-> score result = 0%Z))
  /\ (let result :=
        analyzeSentiment
          {| guid := None; link := None;
             title := "Stocks surge as rally continues";
             contentSnippet := Some ""; creator := None; author := None;
             isoDate := None |} in
      score result = 2%Z /\ sentiment result = "positive").
Proof.
  split; [|vm_compute; split; reflexivity].
  intros article text result.
  destruct sentiment_keywords_plain as [Hpos Hneg].
  subst result. unfold analyzeSentiment.
  rewrite content_titleAndSnippet. fold text.
  rewrite (keywordScore_occurrences _ text Hpos),
          (keywordScore_occurrences _ text Hneg).
  set (p := totalOccurrences POSITIVE_KEYWORDS text).
  set (n := totalOccurrences NEGATIVE_KEYWORDS text).
  destruct (n <? p) eqn:E1; [|destruct (p <? n) eqn:E2]; cbn [score sentiment];
    repeat match goal with
           | H : (_ <? _) = true |- _ => apply Nat.ltb_lt in H
           | H : (_ <? _) = false |- _ => apply Nat.ltb_ge in H
           end;
    (split; [reflexivity|]);
    repeat split; intros; try discriminate; try reflexivity; try lia.
Qed.

(** ** Recent titles *)

Lemma similarLoop_found_iff (now : Z) (n : string) (entries : list (string * Z)) :
  fst (similarLoop now n entries) = true <->
  exists entry, In entry entries /\ isFresh now entry = true /\
                similarTitles (fst entry) n = true.
Proof.
  induction entries as [|[k t] rest IH]; cbn [similarLoop].
  - split; [discriminate | intros (e & [] & _)].
  - unfold isFresh, isStale, similarTitles in *. cbn [fst snd] in *.
    destruct (now - t >? TITLE_WINDOW)%Z eqn:Hstale.
    + rewrite IH. split.
      * intros (e & Hin & H). exists e. split; [now right | exact H].
      * intros (e & [<- | Hin] & Hf & Hs).
        -- cbn [fst snd] in Hf. rewrite Hstale in Hf. discriminate.
        -- exists e. auto.
    + destruct (includes k n || includes n k) eqn:Hsim.
      * cbn [fst]. split; [intros _ | reflexivity].
        exists (k, t). cbn [fst snd]. rewrite Hstale. auto with datatypes.
      * destruct (similarLoop now n rest) as [found rest'] eqn:Hloop.
        cbn [fst] in *. rewrite IH. split.
        -- intros (e & Hin & H). exists e. split; [now right | exact H].
        -- intros (e & [<- | Hin] & Hf & Hs).
           ++ cbn [fst snd] in Hs. congruence.
           ++ exists e. auto.
Qed.

(** What a call leaves in the map: the entries scanned before the loop
    stopped, less the stale ones, and then the entries not reached. *)
Lemma similarLoop_remaining (now : Z) (n : string) (entries : list (string * Z)) :
  exists scanned unreached,
    entries = scanned ++ unreached /\
    snd (similarLoop now n entries) = filter (isFresh now) scanned ++ unreached /\
    (forall entry, In entry scanned -> isFresh now entry = true ->
                   similarTitles (fst entry) n = false) /\
    (if fst (similarLoop now n entries)
     then exists hit later, unreached = hit :: later /\
                            isFresh now hit = true /\
                            similarTitles (fst hit) n = true
     else unreached = []).
Proof.
  induction entries as [|[k t] rest IH]; cbn [similarLoop].
  - exists [], []. cbn. repeat split; auto. intros e [].
  - destruct IH as (scanned & unreached & Heq & Hrem & Hscan & Hfound).
    destruct (now - t >? TITLE_WINDOW)%Z eqn:Hstale.
    + exists ((k, t) :: scanned), unreached.
      cbn [filter]. unfold isFresh at 1, isStale at 1. cbn [snd].
      rewrite Hstale. cbn [negb]. repeat split; auto.
      * now rewrite Heq.
      * intros e [<- | Hin] Hf; [|auto].
        unfold isFresh, isStale in Hf. cbn [snd] in Hf.
        rewrite Hstale in Hf. discriminate.
    + destruct (includes k n || includes n k) eqn:Hsim.
      * exists [], ((k, t) :: rest). cbn. repeat split; auto.
        -- intros e [].
        -- exists (k, t), rest. unfold isFresh, isStale, similarTitles.
           cbn [fst snd]. rewrite Hstale. auto.
      * destruct (similarLoop now n rest) as [found rest'] eqn:Hloop.
        cbn [fst snd] in *.
        exists ((k, t) :: scanned), unreached.
        cbn [filter]. unfold isFresh at 1, isStale at 1. cbn [snd].
        rewrite Hstale. cbn [negb]. repeat split; auto.
        -- now rewrite Heq.
        -- now rewrite Hrem.
        -- intros e [<- | Hin] Hf; [exact Hsim | auto].
Qed.

Lemma similarTitles_iff (cached n : string) :
  similarTitles cached n = true <-> isSubstringOf n cached \/ isSubstringOf cached n.
Proof.
  unfold similarTitles, isSubstringOf.
  now rewrite orb_true_iff, !includes_iff.
Qed.

Lemma isFresh_iff (now : Z) (entry : string * Z) :
  isFresh now entry = true <-> (now - snd entry <= 3600000)%Z.
Proof.
  unfold isFresh, isStale, TITLE_WINDOW.
  rewrite negb_true_iff, Z.gtb_ltb, Z.ltb_ge. reflexivity.
Qed.

(** C6: [isSimilarTitleExists] answers true exactly when some cached title
    that is at most 3,600,000 ms old contains the normalized (lower-cased,
    trimmed) input title or is contained in it; when every cached title
    that matches is more than 3,600,000 ms old, the answer is false. *)
Theorem isSimilarTitleExists_iff_fresh_match
        (now : Z) (title : string) (titles : list (string * Z)) :
  let normalized := trim (toLowerCase title) in
  let matches (cached : string) :=
    isSubstringOf normalized cached \/ isSubstringOf cached normalized in
  (fst (isSimilarTitleExists now title titles) = true <->
   exists cached timestamp,
     In (cached, timestamp) titles /\
     (now - timestamp <= 3600000)%Z /\
     matches cached)
  /\
  ((forall cached timestamp,
       In (cached, timestamp) titles -> matches cached ->
       (now - timestamp > 3600000)%Z) ->
   fst (isSimilarTitleExists now title titles) = false).
Proof.
  intros normalized matches.
  assert (Hiff : fst (isSimilarTitleExists now title titles) = true <->
                 exists cached timestamp,
                   In (cached, timestamp) titles /\
                   (now - timestamp <= 3600000)%Z /\ matches cached).
  { unfold isSimilarTitleExists, normalizeTitle. fold normalized.
    rewrite similarLoop_found_iff. split.
    - intros ([k t] & Hin & Hf & Hs). exists k, t.
      apply isFresh_iff in Hf. apply similarTitles_iff in Hs. auto.
    - intros (k & t & Hin & Hf & Hs). exists (k, t).
      rewrite isFresh_iff, similarTitles_iff. auto. }
  split; [exact Hiff|].
  intros Hold.
  apply not_true_is_false. intros E.
  apply Hiff in E. destruct E as (k & t & Hin & Hf & Hs).
  specialize (Hold k t Hin Hs). lia.
Qed.

Lemma isSimilarTitleExists_iff_fresh_match_witness :
  fst (isSimilarTitleExists 3700000 "  Fed Raises Rates "
         [("fed raises rates today", 0%Z)]) = false.
Proof.
  apply (proj2 (isSimilarTitleExists_iff_fresh_match 3700000 "  Fed Raises Rates "
                  [("fed raises rates today", 0%Z)])).
  intros cached timestamp [H | []] _. inversion H. lia.
Defined.

(** C7, as the code has it: a call removes the stale entries it scans
    before the loop stops, and only those.  The entries of the map split
    into those scanned and those not reached; no scanned entry is both
    not stale and a match, so the loop stops at the first entry that is
    not stale and matches, and only there; what remains is the scanned
    entries that are not stale followed by the unreached ones, from the
    match on, exactly as they were.  Hence after a call that answers false
    no stale entry remains, and no call removes an entry that is not
    stale. *)
Theorem isSimilarTitleExists_purges_scanned_stale
        (now : Z) (title : string) (titles : list (string * Z)) :
  let found := fst (isSimilarTitleExists now title titles) in
  let remaining := snd (isSimilarTitleExists now title titles) in
  (exists scanned unreached,
      titles = scanned ++ unreached /\
      remaining = filter (isFresh now) scanned ++ unreached /\
      (forall entry, In entry scanned -> isFresh now entry = true ->
                     similarTitles (fst entry) (normalizeTitle title) = false) /\
      (if found
       then exists hit later,
           unreached = hit :: later /\ isFresh now hit = true /\
           similarTitles (fst hit) (normalizeTitle title) = true
       else unreached = []))
  /\ (found = false ->
      remaining = filter (isFresh now) titles /\
      forall entry, In entry remaining -> (now - snd entry <= 3600000)%Z)
  /\ (forall entry, In entry titles -> isFresh now entry = true ->
                    In entry remaining).
Proof.
  intros found remaining. subst found remaining.
  unfold isSimilarTitleExists.
  destruct (similarLoop_remaining now (normalizeTitle title) titles)
    as (scanned & unreached & Heq & Hrem & Hscan & Hfound).
  split; [|split].
  - exists scanned, unreached. auto.
  - intros Hf. rewrite Hf in Hfound. subst unreached.
    rewrite app_nil_r in *. subst titles. split; [exact Hrem|].
    intros entry Hin. rewrite Hrem in Hin. apply filter_In in Hin.
    now apply isFresh_iff.
  - intros entry Hin Hfresh. rewrite Hrem. rewrite Heq in Hin.
    apply in_app_iff in Hin. apply in_app_iff.
    destruct Hin as [Hin | Hin]; [left | now right].
    apply filter_In. auto.
Qed.

Lemma isSimilarTitleExists_purges_scanned_stale_witness :
  fst (isSimilarTitleExists 3700000 "Quiet day"
         [("old headline", 0%Z); ("fed raises rates", 1000000%Z)]) = false /\
  snd (isSimilarTitleExists 3700000 "Quiet day"
         [("old headline", 0%Z); ("fed raises rates", 1000000%Z)])
  = [("fed raises rates", 1000000%Z)].
Proof.
  split; [reflexivity|].
  apply (proj1 (proj2 (isSimilarTitleExists_purges_scanned_stale
           3700000 "Quiet day"
           [("old headline", 0%Z); ("fed raises rates", 1000000%Z)]))).
  reflexivity.
Defined.

(** C7, as stated, fails: a call that stops at a match leaves the stale
    entries behind it in the map. *)
Lemma isSimilarTitleExists_leaves_stale_after_match :
  let now := 3700000%Z in
  let titles := [("fed raises rates", 1000000%Z); ("old headline", 0%Z)] in
  let result := isSimilarTitleExists now "Fed raises rates" titles in
  fst result = true /\
  In ("old headline", 0%Z) (snd result) /\
  (now - 0 > 3600000)%Z.
Proof. cbv zeta. split; [reflexivity|]. split; [vm_compute; auto | lia]. Qed.

(** ** Seen set *)

Lemma articleId_eqb_eq (a b : ArticleId) : articleId_eqb a b = true <-> a = b.
Proof.
  destruct a as [x|], b as [y|]; simpl; try rewrite String.eqb_eq;
    split; intros H; try discriminate; try reflexivity; congruence.
Qed.

Lemma setHas_iff (x : ArticleId) (s : list ArticleId) :
  setHas x s = true <-> In x s.
Proof.
  unfold setHas. rewrite existsb_exists. split.
  - intros (y & Hin & H). apply articleId_eqb_eq in H. now subst.
  - intros H. exists x. split; [assumption | now apply articleId_eqb_eq].
Qed.

Lemma setHas_false (x : ArticleId) (s : list ArticleId) :
  setHas x s = false <-> ~ In x s.
Proof. rewrite <- setHas_iff. destruct (setHas x s); split; congruence. Qed.

Lemma setAdd_length (x : ArticleId) (s : list ArticleId) :
  length (setAdd x s) <= S (length s).
Proof.
  unfold setAdd. destruct (setHas x s); [lia|].
  rewrite length_app. simpl. lia.
Qed.

Lemma setAdd_NoDup (x : ArticleId) (s : list ArticleId) :
  NoDup s -> NoDup (setAdd x s).
Proof.
  intros H. unfold setAdd. destruct (setHas x s) eqn:E; [assumption|].
  apply setHas_false in E.
  apply NoDup_app; [assumption | repeat constructor; auto |].
  intros y Hy [<- | []]. contradiction.
Qed.

Lemma refill_from_length (items acc : list ArticleId) :
  length (fold_left (fun s item => setAdd item s) items acc)
  <= length acc + length items.
Proof.
  revert acc; induction items as [|x items IH]; intros acc; simpl; [lia|].
  specialize (IH (setAdd x acc)). pose proof (setAdd_length x acc). lia.
Qed.

Lemma refill_from_NoDup (items acc : list ArticleId) :
  NoDup (acc ++ items) ->
  fold_left (fun s item => setAdd item s) items acc = acc ++ items.
Proof.
  revert acc; induction items as [|x items IH]; intros acc H; simpl.
  - now rewrite app_nil_r.
  - assert (Hx : setHas x acc = false).
    { apply setHas_false. intros Hin.
      apply NoDup_remove_2 in H. apply H. apply in_app_iff. now left. }
    unfold setAdd at 2. rewrite Hx.
    rewrite IH; rewrite <- app_assoc; simpl; auto.
Qed.

Lemma refill_NoDup (items : list ArticleId) :
  NoDup items -> refill items = items.
Proof. intros H. unfold refill. now rewrite refill_from_NoDup. Qed.

Lemma NoDup_skipn {A : Type} (n : nat) (l : list A) :
  NoDup l -> NoDup (skipn n l).
Proof.
  intros H. rewrite <- (firstn_skipn n l) in H.
  now apply NoDup_app_remove_l in H.
Qed.

Lemma sliceLast_length {A : Type} (n : nat) (l : list A) :
  length (sliceLast n l) = Nat.min n (length l).
Proof. unfold sliceLast. rewrite length_skipn. lia. Qed.

Lemma nodupb_sound (l : list ArticleId) : nodupb l = true -> NoDup l.
Proof.
  induction l as [|x l IH]; simpl; intros H; constructor;
    apply andb_true_iff in H; destruct H as [Hx Hl].
  - apply negb_true_iff in Hx. now apply setHas_false.
  - auto.
Qed.

(** C2: after [addToCache] the seen set holds at most 1000 identifiers;
    and when the insertion brings it above 1000, exactly 500 are left,
    which are the 500 inserted last, in their insertion order, the older
    ones being discarded. *)
Theorem addToCache_size_bounded
        (now : Z) (articleId : ArticleId) (title : string) (c : Cache) :
  let ids := setAdd articleId (articleCache c) in
  let kept := articleCache (addToCache now articleId title c) in
  length kept <= 1000
  /\ (NoDup (articleCache c) ->
      NoDup kept
      /\ (length ids <= 1000 -> kept = ids)
      /\ (1000 < length ids ->
          length kept = 500 /\
          exists evicted,
            ids = evicted ++ kept /\ length evicted = length ids - 500)).
Proof.
  intros ids kept. subst kept. unfold addToCache. fold ids.
  cbn [articleCache]. unfold cacheOverflows.
  change (MAX_CACHE_SIZE / 2) with 500. change MAX_CACHE_SIZE with 1000.
  split.
  - destruct (1000 <? length ids) eqn:E.
    + unfold refill.
      etransitivity; [apply refill_from_length|].
      rewrite sliceLast_length. cbn [length]. lia.
    + apply Nat.ltb_ge in E. exact E.
  - intros Hnd.
    assert (Hids : NoDup ids) by (now apply setAdd_NoDup).
    assert (Hkeep : NoDup (sliceLast 500 ids)) by (now apply NoDup_skipn).
    destruct (1000 <? length ids) eqn:E.
    + apply Nat.ltb_lt in E. rewrite (refill_NoDup _ Hkeep).
      split; [exact Hkeep|]. split; [lia|]. intros _.
      split; [rewrite sliceLast_length; lia|].
      exists (firstn (length ids - 500) ids). split.
      * unfold sliceLast. now rewrite firstn_skipn.
      * rewrite length_firstn. lia.
    + apply Nat.ltb_ge in E. split; [exact Hids|]. split; [reflexivity | lia].
Qed.

Lemma addToCache_size_bounded_witness :
  NoDup (sampleIds 1000) /\
  length (articleCache
            (addToCache 0 (sampleId 1000) "Fed raises interest rates"
               {| articleCache := sampleIds 1000; titleCache := [] |})) = 500.
Proof.
  assert (H : NoDup (sampleIds 1000))
    by (apply nodupb_sound; vm_compute; reflexivity).
  split; [exact H|].
  destruct (proj2 (addToCache_size_bounded 0 (sampleId 1000)
                     "Fed raises interest rates"
                     {| articleCache := sampleIds 1000; titleCache := [] |}) H)
    as (_ & _ & Hover).
  apply Hover. apply Nat.ltb_lt. vm_compute. reflexivity.
Defined.

(** ** Running computations *)

Ltac monad_simpl :=
  cbv beta iota zeta delta
      [run bind tryCatch ret throw log emit sleep advance botSendMessage
       parserParseURL getCache putCache dateNow getWorld];
  cbn [cache sent clock trace fst snd].

Lemma emitted_of_trace {A : Type} (m : M A) (w : World) (s : State) (evs : list Event) :
  trace (snd (run m w s)) = trace s ++ evs -> emitted m w s = evs.
Proof.
  intros H. unfold emitted. rewrite H, skipn_app, skipn_all, Nat.sub_diag.
  reflexivity.
Qed.


(** ** Dispatch *)

Lemma sendLoop_shape (n : nat) (w : World) (message : string) :
  forall s : State,
  exists k final,
    k <= n /\
    (forall i, sent s <= i < sent s + k -> rateLimitedAt w message i) /\
    DispatchEnd w message (sent s + k) k n final /\
    fst (run (sendLoop n message) w s) = Normal tt /\
    cache (snd (run (sendLoop n message) w s)) = cache s /\
    trace (snd (run (sendLoop n message) w s)) =
      trace s ++ flat_map (retryBlock w message) (seq (sent s) k) ++ final.
Proof.
  induction n as [|n IH]; intros s.
  - exists 0, [EvLog ErrMaxRetries]. repeat split; auto.
    + intros i Hi. lia.
    + now constructor.
  - unfold run in *. cbn [sendLoop]. monad_simpl.
    destruct (sendMessage w (sent s) message) as [error|] eqn:Hsend.
    + destruct (isRateLimit error) eqn:Hrl; monad_simpl.
      * (* rate limited: wait, then the next attempt *)
        match goal with
        | |- context [sendLoop n message w ?st] => destruct (IH st) as
              (k & final & Hk & Hlim & Hend & Hres & Hcache & Htrace)
        end.
        cbn [sent cache trace] in *.
        exists (S k), final. repeat split.
        -- lia.
        -- intros i Hi. destruct (Nat.eq_dec i (sent s)) as [->|Hne].
           ++ exists error. auto.
           ++ apply Hlim. lia.
        -- replace (sent s + S k) with (S (sent s) + k) by lia.
           inversion Hend; subst.
           ++ apply EndDelivered; [lia | assumption].
           ++ eapply EndFailed; [lia | eassumption | assumption].
           ++ now apply EndAbandoned.
        -- exact Hres.
        -- exact Hcache.
        -- rewrite Htrace. cbn [seq flat_map]. unfold retryBlock at 2.
           rewrite Hsend. rewrite <- !app_assoc. reflexivity.
      * exists 0, [EvSend message; EvLog (ErrSending error)].
        cbn [fst snd cache trace seq flat_map app]. repeat split; auto.
        -- lia.
        -- intros i Hi. lia.
        -- rewrite Nat.add_0_r. eapply EndFailed; [lia | eassumption | assumption].
        -- now rewrite <- app_assoc.
    + monad_simpl. exists 0, [EvSend message; EvLog LogSent].
      cbn [fst snd cache trace seq flat_map app]. repeat split; auto.
      * lia.
      * intros i Hi. lia.
      * rewrite Nat.add_0_r. apply EndDelivered; [lia | assumption].
      * now rewrite <- app_assoc.
Qed.

Lemma countSends_app (a b : list Event) :
  countSends (a ++ b) = countSends a + countSends b.
Proof. unfold countSends. now rewrite filter_app, length_app. Qed.

Lemma countRecords_app (a b : list Event) :
  countRecords (a ++ b) = countRecords a + countRecords b.
Proof. unfold countRecords. now rewrite filter_app, length_app. Qed.


Lemma retryBlocks_records (w : World) (message : string) (a k : nat) :
  countRecords (flat_map (retryBlock w message) (seq a k)) = 0.
Proof.
  revert a; induction k as [|k IH]; intros a; cbn [seq flat_map]; [auto|].
  rewrite countRecords_app, IH.
  unfold retryBlock. destruct (sendMessage w a message); reflexivity.
Qed.

Lemma DispatchEnd_counts (w : World) (message : string) (next k n : nat)
      (final : list Event) :
  DispatchEnd w message next k n final ->
  k + countSends final <= n /\ countRecords final = 0.
Proof. intros H. inversion H; subst; cbn; split; lia. Qed.

Example waitTimeOf_server_hint :
  waitTimeOf "ETELEGRAM: 429 Too Many Requests: retry after 35" = 35000%Z
  /\ waitTimeOf "ETELEGRAM: 429 Too Many Requests" = 30000%Z.
Proof. split; reflexivity. Qed.


(** ** Formatting *)

Lemma formatMessage_state (article : Article) (sen : Sentiment) (w : World) (s : State) :
  snd (run (formatMessage article sen) w s) = s.
Proof.
  unfold formatMessage, sourceOf, publishedOf. monad_simpl.
  destruct (truthy (jsOr (creator article) (author article))); monad_simpl.
  - destruct (truthy (isoDate article)); reflexivity.
  - destruct (urlHostname w (jsToString (link article))); monad_simpl;
      [destruct (truthy (isoDate article))|]; reflexivity.
Qed.

Lemma formatMessage_clock (article : Article) (sen : Sentiment) (w : World)
      (s s' : State) :
  clock s = clock s' ->
  fst (run (formatMessage article sen) w s) = fst (run (formatMessage article sen) w s').
Proof.
  intros Hc. unfold formatMessage, sourceOf, publishedOf. monad_simpl.
  destruct (truthy (jsOr (creator article) (author article))); monad_simpl.
  - destruct (truthy (isoDate article)); monad_simpl; now rewrite ?Hc.
  - destruct (urlHostname w (jsToString (link article))); monad_simpl;
      [destruct (truthy (isoDate article)); monad_simpl|]; now rewrite ?Hc.
Qed.

Lemma formatMessage_throws (article : Article) (sen : Sentiment) (w : World) (s : State) :
  truthy (creator article) = false ->
  truthy (author article) = false ->
  urlHostname w (jsToString (link article)) = None ->
  run (formatMessage article sen) w s = (Throw "Invalid URL", s).
Proof.
  intros Hc Ha Hurl. unfold formatMessage, sourceOf, jsOr. rewrite Hc, Ha.
  monad_simpl. rewrite Hurl. reflexivity.
Qed.

(** ** Recording *)

Lemma addToCacheM_run (articleId : ArticleId) (title : string) (w : World) (s : State) :
  run (addToCacheM articleId title) w s =
  (Normal tt,
   {| cache := addToCache (clock s) articleId title (cache s);
      sent := sent s;
      clock := clock s;
      trace := trace s ++ EvRecord articleId title
                        :: cacheLogs (clock s) articleId title (cache s) |}).
Proof.
  unfold addToCacheM, cacheLogs. monad_simpl.
  destruct (cacheOverflows (setAdd articleId (articleCache (cache s))));
    monad_simpl; rewrite <- ?app_assoc; reflexivity.
Qed.

Lemma cacheLogs_counts (now : Z) (articleId : ArticleId) (title : string) (c : Cache) :
  countSends (cacheLogs now articleId title c) = 0 /\
  countRecords (cacheLogs now articleId title c) = 0.
Proof.
  unfold cacheLogs.
  destruct (cacheOverflows (setAdd articleId (articleCache c))); split; reflexivity.
Qed.

Lemma refill_from_In (x : ArticleId) (items acc : list ArticleId) :
  In x acc \/ In x items ->
  In x (fold_left (fun s item => setAdd item s) items acc).
Proof.
  revert acc; induction items as [|y items IH]; intros acc H; simpl.
  - destruct H as [H | []]; exact H.
  - apply IH. destruct H as [H | [-> | H]]; auto; left; unfold setAdd.
    + destruct (setHas y acc); [exact H | apply in_app_iff; now left].
    + destruct (setHas x acc) eqn:E; [now apply setHas_iff |].
      apply in_app_iff. right. now left.
Qed.

Lemma sliceLast_last {A : Type} (n : nat) (l : list A) (x : A) :
  0 < n -> In x (sliceLast n (l ++ [x])).
Proof.
  intros Hn. unfold sliceLast. rewrite length_app. cbn [length].
  rewrite skipn_app. apply in_app_iff. right.
  replace (length l + 1 - n - length l) with 0 by lia. now left.
Qed.

(** A new identifier is in the seen set once it is recorded, also when the
    recording evicts. *)
Lemma addToCache_has (now : Z) (articleId : ArticleId) (title : string) (c : Cache) :
  setHas articleId (articleCache c) = false ->
  In articleId (articleCache (addToCache now articleId title c)).
Proof.
  intros Hnew. unfold addToCache. cbn [articleCache].
  unfold setAdd. rewrite Hnew.
  destruct (cacheOverflows (articleCache c ++ [articleId])).
  - unfold refill. apply refill_from_In. right.
    apply sliceLast_last. cbn. lia.
  - apply in_app_iff. right. now left.
Qed.

Lemma mapSet_In (k : string) (v : Z) (m : list (string * Z)) :
  In (k, v) (mapSet k v m).
Proof.
  induction m as [|[k' v'] m IH]; simpl; [now left|].
  destruct (String.eqb k k'); [now left | now right].
Qed.

(** ** One entry of a feed *)

Lemma processArticle_reaches_filter (article : Article) (w : World) (s : State) :
  reachesFilter article s ->
  run (processArticle article) w s =
  if isMarketRelevant article then
    run (log (LogRelevant (title article)) ;;;
         message <- formatMessage article (analyzeSentiment article) ;;
         sendToTelegram message ;;;
         addToCacheM (jsOr (guid article) (link article)) (title article))
        w (afterDedup (title article) s)
  else (Normal tt, afterDedup (title article) s).
Proof.
  intros [Hseen Hsim]. unfold processArticle, isSimilarTitleExistsM, afterDedup.
  monad_simpl. rewrite Hseen.
  destruct (isSimilarTitleExists (clock s) (title article) (titleCache (cache s)))
    as [found titles] eqn:E.
  cbn [fst snd] in *. subst found. monad_simpl.
  destruct (isMarketRelevant article); reflexivity.
Qed.

(** An entry that reaches the relevance filter, passes it and is formatted
    is dispatched and then recorded. *)
Lemma processArticle_dispatch_then_record
      (w : World) (s : State) (article : Article) (message : string) :
  let articleId := jsOr (guid article) (link article) in
  reachesFilter article s ->
  isMarketRelevant article = true ->
  fst (run (formatMessage article (analyzeSentiment article)) w s) = Normal message ->
  exists k final recordedAt logs,
    k <= 3 /\
    (forall i, sent s <= i < sent s + k -> rateLimitedAt w message i) /\
    DispatchEnd w message (sent s + k) k 3 final /\
    countSends logs = 0 /\ countRecords logs = 0 /\
    fst (run (processArticle article) w s) = Normal tt /\
    trace (snd (run (processArticle article) w s)) =
      trace s ++
      EvLog (LogRelevant (title article))
        :: (flat_map (retryBlock w message) (seq (sent s) k) ++ final)
        ++ EvRecord articleId (title article) :: logs /\
    logs = cacheLogs recordedAt articleId (title article)
                     (cache (afterDedup (title article) s)) /\
    cache (snd (run (processArticle article) w s)) =
      addToCache recordedAt articleId (title article)
                 (cache (afterDedup (title article) s)).
Proof.
  intros articleId Hreach Hrel Hfmt.
  assert (Hrun := processArticle_reaches_filter article w s Hreach).
  rewrite Hrel in Hrun.
  set (s1 := afterDedup (title article) s) in *.
  set (s2 := {| cache := cache s1; sent := sent s1; clock := clock s1;
                trace := trace s1 ++ [EvLog (LogRelevant (title article))] |}).
  assert (Hfmt2 : run (formatMessage article (analyzeSentiment article)) w s2
                  = (Normal message, s2)).
  { rewrite (surjective_pairing (run _ w s2)).
    rewrite formatMessage_state.
    rewrite (formatMessage_clock _ _ w s2 s) by reflexivity.
    now rewrite Hfmt. }
  destruct (sendLoop_shape 3 w message s2)
    as (k & final & Hk & Hlim & Hend & Hres & Hcache & Htrace).
  set (s3 := snd (run (sendLoop 3 message) w s2)) in *.
  assert (Hsend : run (sendToTelegram message) w s2 = (Normal tt, s3)).
  { unfold sendToTelegram, maxRetries.
    rewrite (surjective_pairing (run _ w s2)). now rewrite Hres. }
  assert (Hall : run (processArticle article) w s =
                 run (addToCacheM articleId (title article)) w s3).
  { rewrite Hrun. unfold run in *. unfold bind at 1. unfold log, emit.
    fold s2. unfold bind at 1. rewrite Hfmt2.
    unfold bind at 1. rewrite Hsend. reflexivity. }
  rewrite addToCacheM_run in Hall.
  exists k, final, (clock s3), (cacheLogs (clock s3) articleId (title article) (cache s3)).
  destruct (cacheLogs_counts (clock s3) articleId (title article) (cache s3))
    as [Hls Hlr].
  repeat split; auto.
  - now rewrite Hall.
  - rewrite Hall. cbn [snd trace].
    rewrite Htrace. subst s2 s1. unfold afterDedup. cbn [trace].
    rewrite <- !app_assoc. reflexivity.
  - now rewrite Hcache.
  - rewrite Hall. cbn [snd cache]. now rewrite Hcache.
Qed.

(** C1, as the code has it: for an entry that reaches the relevance
    filter, passes it and is formatted into a message, [addToCache] is
    called exactly once, after the dispatch of the message has ended, be
    it with a delivery, with an error that is not retried or with the
    abandonment after three rate-limited attempts; the identifier and the
    normalized title are then in the caches. *)
Theorem processArticle_records_once_after_dispatch
        (w : World) (s : State) (article : Article) (message : string) :
  let articleId := jsOr (guid article) (link article) in
  let events := emitted (processArticle article) w s in
  let after := snd (run (processArticle article) w s) in
  reachesFilter article s ->
  isMarketRelevant article = true ->
  fst (run (formatMessage article (analyzeSentiment article)) w s) = Normal message ->
  fst (run (processArticle article) w s) = Normal tt
  /\ countRecords events = 1
  /\ (exists k final logs,
         DispatchEnd w message (sent s + k) k 3 final /\
         countSends logs = 0 /\
         events =
           EvLog (LogRelevant (title article))
             :: (flat_map (retryBlock w message) (seq (sent s) k) ++ final)
             ++ EvRecord articleId (title article) :: logs)
  /\ In articleId (articleCache (cache after))
  /\ (exists timestamp,
         In (normalizeTitle (title article), timestamp) (titleCache (cache after))).
Proof.
  intros articleId events after Hreach Hrel Hfmt.
  destruct (processArticle_dispatch_then_record w s article message Hreach Hrel Hfmt)
    as (k & final & recordedAt & logs & Hk & Hlim & Hend & Hls & Hlr & Hres & Hev
        & _ & Hcache).
  apply emitted_of_trace in Hev.
  fold articleId in Hev, Hcache. subst events after.
  split; [exact Hres|]. split; [|split; [|split]].
  - rewrite Hev.
    change (EvLog ?l :: ?a ++ ?b) with ([EvLog l] ++ a ++ b).
    rewrite !countRecords_app, retryBlocks_records.
    apply DispatchEnd_counts in Hend. destruct Hend as [_ Hfr]. rewrite Hfr.
    change (EvRecord ?i ?t :: logs) with ([EvRecord i t] ++ logs).
    rewrite countRecords_app, Hlr. reflexivity.
  - exists k, final, logs. auto.
  - rewrite Hcache. apply addToCache_has. apply Hreach.
  - rewrite Hcache. exists recordedAt. unfold addToCache. cbn [titleCache].
    apply mapSet_In.
Qed.

Lemma processArticle_records_once_after_dispatch_witness :
  reachesFilter fedArticle initialState /\
  countRecords (emitted (processArticle fedArticle)
                        (sampleWorld chatNotFound (firstFeedOnly []))
                        initialState) = 1.
Proof.
  assert (H : reachesFilter fedArticle initialState) by (split; reflexivity).
  split; [exact H|].
  refine (proj1 (proj2 (processArticle_records_once_after_dispatch
            (sampleWorld chatNotFound (firstFeedOnly [])) initialState fedArticle
            _ H _ _))).
  - reflexivity.
  - vm_compute. reflexivity.
Defined.

(** C1, as stated, fails: a relevant entry whose message cannot be
    formatted reaches no dispatch and is not recorded. *)
Lemma processArticle_unformatted_not_recorded :
  let w := sampleWorld alwaysDelivered (firstFeedOnly []) in
  reachesFilter unlinkedArticle initialState /\
  isMarketRelevant unlinkedArticle = true /\
  fst (run (processArticle unlinkedArticle) w initialState) = Throw "Invalid URL" /\
  countRecords (emitted (processArticle unlinkedArticle) w initialState) = 0 /\
  articleCache (cache (snd (run (processArticle unlinkedArticle) w initialState))) = [].
Proof. cbv zeta. repeat split; vm_compute; reflexivity. Qed.

(** C3, as the code has it: when the dispatch of the message of an entry
    fails with an error that is not a rate limit, the message is abandoned
    after that single attempt, and the entry is recorded all the same: its
    identifier is in the seen set and its normalized title among the
    recent titles. *)
Theorem processArticle_records_after_delivery_error
        (w : World) (s : State) (article : Article) (message error : string) :
  let articleId := jsOr (guid article) (link article) in
  let events := emitted (processArticle article) w s in
  let after := snd (run (processArticle article) w s) in
  reachesFilter article s ->
  isMarketRelevant article = true ->
  fst (run (formatMessage article (analyzeSentiment article)) w s) = Normal message ->
  sendMessage w (sent s) message = Some error ->
  isRateLimit error = false ->
  (exists logs,
      countSends logs = 0 /\
      events = [EvLog (LogRelevant (title article));
                EvSend message;
                EvLog (ErrSending error);
                EvRecord articleId (title article)] ++ logs)
  /\ countSends events = 1
  /\ In articleId (articleCache (cache after))
  /\ (exists timestamp,
         In (normalizeTitle (title article), timestamp) (titleCache (cache after))).
Proof.
  intros articleId events after Hreach Hrel Hfmt Hsend Hrl.
  destruct (processArticle_dispatch_then_record w s article message Hreach Hrel Hfmt)
    as (k & final & recordedAt & logs & Hk & Hlim & Hend & Hls & Hlr & Hres & Hev
        & _ & Hcache).
  apply emitted_of_trace in Hev.
  fold articleId in Hev, Hcache. subst events after.
  assert (Hk0 : k = 0).
  { destruct k as [|k]; [reflexivity|exfalso].
    destruct (Hlim (sent s)) as (e & He & Hrl'); [lia|]. congruence. }
  subst k. rewrite Nat.add_0_r in Hend. cbn [seq flat_map app] in Hev.
  assert (Hfinal : final = [EvSend message; EvLog (ErrSending error)]).
  { inversion Hend; subst; try congruence; lia. }
  subst final. cbn [app] in Hev.
  split; [|split; [|split]].
  - exists logs. auto.
  - rewrite Hev.
    change (?a :: ?b :: ?c :: ?d :: logs) with ([a; b; c; d] ++ logs).
    rewrite countSends_app, Hls. reflexivity.
  - rewrite Hcache. apply addToCache_has. apply Hreach.
  - rewrite Hcache. exists recordedAt. unfold addToCache. cbn [titleCache].
    apply mapSet_In.
Qed.

Lemma processArticle_records_after_delivery_error_witness :
  reachesFilter fedArticle initialState /\
  isRateLimit "ETELEGRAM: 400 Bad Request: chat not found" = false /\
  In (Some "guid-1")
     (articleCache
        (cache (snd (run (processArticle fedArticle)
                         (sampleWorld chatNotFound (firstFeedOnly []))
                         initialState)))).
Proof.
  assert (H : reachesFilter fedArticle initialState) by (split; reflexivity).
  split; [exact H|]. split; [reflexivity|].
  refine (proj1 (proj2 (proj2 (processArticle_records_after_delivery_error
            (sampleWorld chatNotFound (firstFeedOnly [])) initialState fedArticle
            _ "ETELEGRAM: 400 Bad Request: chat not found" H _ _ _ _)))).
  - reflexivity.
  - vm_compute. reflexivity.
  - reflexivity.
  - reflexivity.
Defined.

(** C3, as stated, fails: after a delivery error that is not a rate limit
    the entry is in the seen set and its title among the recent titles. *)
Lemma delivery_error_entry_is_recorded :
  let w := sampleWorld chatNotFound (firstFeedOnly []) in
  let after := snd (run (processArticle fedArticle) w initialState) in
  isRateLimit "ETELEGRAM: 400 Bad Request: chat not found" = false /\
  countSends (emitted (processArticle fedArticle) w initialState) = 1 /\
  articleCache (cache initialState) = [] /\
  titleCache (cache initialState) = [] /\
  articleCache (cache after) = [Some "guid-1"] /\
  map fst (titleCache (cache after)) = ["fed raises interest rates"].
Proof. cbv zeta. repeat split; vm_compute; reflexivity. Qed.

(** ** One feed *)

Lemma forEach_app {A : Type} (body : A -> M unit) (l1 l2 : list A) (w : World) (s : State) :
  run (forEach body (l1 ++ l2)) w s =
  match run (forEach body l1) w s with
  | (Normal _, s') => run (forEach body l2) w s'
  | (Throw e, s') => (Throw e, s')
  end.
Proof.
  revert s; induction l1 as [|x l1 IH]; intros s; cbn [app forEach].
  - reflexivity.
  - unfold run in *. unfold bind.
    destruct (body x w s) as [[[]|e] s']; [apply IH | reflexivity].
Qed.

Lemma checkFeed_run (feedUrl : string) (items : list Article) (w : World) (s : State) :
  parseURL w feedUrl = inr items ->
  run (checkFeed feedUrl) w s =
  match run (forEach processArticle items) w (afterFetch w feedUrl s) with
  | (Normal a, s') => (Normal a, s')
  | (Throw e, s') =>
      (Normal tt,
       {| cache := cache s'; sent := sent s'; clock := clock s';
          trace := trace s' ++ [EvLog (ErrFeed feedUrl e)] |})
  end.
Proof.
  intros Hfeed. unfold checkFeed, afterFetch. monad_simpl. rewrite Hfeed.
  rewrite <- app_assoc. cbn [app].
  match goal with
  | |- context [forEach processArticle items w ?st] =>
      destruct (forEach processArticle items w st) as [[[]|e] s']
  end; reflexivity.
Qed.

(** C10: when an entry reaches the relevance filter and passes it, has
    neither creator nor author, and its link, absent or not, is not a URL
    the constructor accepts, formatting its message throws; the exception
    is caught for the feed as a whole, so the processing of the feed ends
    there with an error line: nothing is dispatched or recorded for that
    entry or for the entries after it, whatever they are. *)
Theorem formatMessage_throw_skips_rest_of_feed
        (w : World) (s0 s : State) (feedUrl : string)
        (before rest : list Article) (article : Article) :
  parseURL w feedUrl = inr (before ++ article :: rest) ->
  run (forEach processArticle before) w (afterFetch w feedUrl s0) = (Normal tt, s) ->
  reachesFilter article s ->
  isMarketRelevant article = true ->
  truthy (creator article) = false ->
  truthy (author article) = false ->
  urlHostname w (jsToString (link article)) = None ->
  fst (run (formatMessage article (analyzeSentiment article)) w s) = Throw "Invalid URL"
  /\ run (forEach processArticle (article :: rest)) w s
     = run (processArticle article) w s
  /\ run (checkFeed feedUrl) w s0 =
     (Normal tt,
      {| cache := cache (afterDedup (title article) s);
         sent := sent s;
         clock := clock s;
         trace := trace s ++ [EvLog (LogRelevant (title article));
                              EvLog (ErrFeed feedUrl "Invalid URL")] |}).
Proof.
  intros Hfeed Hbefore Hreach Hrel Hc Ha Hurl.
  assert (Hone : run (processArticle article) w s =
                 (Throw "Invalid URL",
                  {| cache := cache (afterDedup (title article) s);
                     sent := sent s; clock := clock s;
                     trace := trace s ++ [EvLog (LogRelevant (title article))] |})).
  { rewrite (processArticle_reaches_filter article w s Hreach), Hrel.
    unfold run. unfold bind at 1. unfold log, emit. unfold bind at 1.
    pose proof (formatMessage_throws article (analyzeSentiment article) w) as Hthrow.
    unfold run in Hthrow. rewrite Hthrow by assumption. reflexivity. }
  assert (Hrest : run (forEach processArticle (article :: rest)) w s =
                  run (processArticle article) w s).
  { cbn [forEach]. unfold run in *. unfold bind. now rewrite Hone. }
  split; [|split].
  - now rewrite formatMessage_throws.
  - exact Hrest.
  - rewrite (checkFeed_run feedUrl _ w s0 Hfeed).
    rewrite forEach_app, Hbefore, Hrest, Hone. cbn [cache sent clock trace].
    now rewrite <- app_assoc.
Qed.

Lemma formatMessage_throw_skips_rest_of_feed_witness :
  let w := sampleWorld alwaysDelivered (firstFeedOnly [unlinkedArticle; fedArticle]) in
  reachesFilter unlinkedArticle (afterFetch w "https://finance.yahoo.com/news/rssindex" initialState) /\
  isMarketRelevant fedArticle = true /\
  emitted (checkFeed "https://finance.yahoo.com/news/rssindex") w initialState =
    [EvLog (LogFetching "https://finance.yahoo.com/news/rssindex");
     EvFetch "https://finance.yahoo.com/news/rssindex";
     EvLog (LogRelevant "Nifty and Sensex plunge");
     EvLog (ErrFeed "https://finance.yahoo.com/news/rssindex" "Invalid URL")].
Proof.
  cbv zeta.
  set (w := sampleWorld alwaysDelivered (firstFeedOnly [unlinkedArticle; fedArticle])).
  set (url := "https://finance.yahoo.com/news/rssindex").
  assert (H : reachesFilter unlinkedArticle (afterFetch w url initialState))
    by (split; reflexivity).
  split; [exact H|]. split; [vm_compute; reflexivity|].
  apply emitted_of_trace.
  rewrite (proj2 (proj2 (formatMessage_throw_skips_rest_of_feed
             w initialState (afterFetch w url initialState) url
             [] [fedArticle] unlinkedArticle
             eq_refl eq_refl H eq_refl eq_refl eq_refl eq_refl))).
  reflexivity.
Defined.

(** ** A whole tick *)

Lemma TickTrace_app (w : World) (a b : list Event) :
  TickTrace w a -> TickTrace w b -> TickTrace w (a ++ b).
Proof.
  intros Ha Hb. induction Ha as [|e evs Hq _ IH|m first k final id t evs Hlim Hend _ IH].
  - exact Hb.
  - cbn [app]. now apply TickQuiet.
  - rewrite <- !app_assoc. rewrite <- app_comm_cons.
    now apply TickDispatch.
Qed.

Lemma cacheLogs_quiet (w : World) (now : Z) (articleId : ArticleId)
      (title : string) (c : Cache) :
  TickTrace w (cacheLogs now articleId title c).
Proof.
  unfold cacheLogs.
  destruct (cacheOverflows (setAdd articleId (articleCache c)));
    repeat (apply TickQuiet; [reflexivity|]); apply TickNil.
Qed.

Lemma processArticle_traced (article : Article) : Traced (processArticle article).
Proof.
  intros w s.
  destruct (setHas (jsOr (guid article) (link article)) (articleCache (cache s)))
    eqn:Hseen.
  { exists []. split; [|apply TickNil].
    unfold processArticle. monad_simpl. rewrite Hseen.
    now rewrite app_nil_r. }
  destruct (fst (isSimilarTitleExists (clock s) (title article)
                   (titleCache (cache s)))) eqn:Hsim.
  { exists []. split; [|apply TickNil].
    unfold processArticle, isSimilarTitleExistsM. monad_simpl. rewrite Hseen.
    destruct (isSimilarTitleExists (clock s) (title article) (titleCache (cache s)))
      as [found titles].
    cbn [fst] in Hsim. subst found. monad_simpl. now rewrite app_nil_r. }
  assert (Hreach : reachesFilter article s) by (split; assumption).
  destruct (isMarketRelevant article) eqn:Hrel.
  - destruct (fst (run (formatMessage article (analyzeSentiment article)) w s))
      as [message|e] eqn:Hfmt.
    + destruct (processArticle_dispatch_then_record w s article message
                  Hreach Hrel Hfmt)
        as (k & final & recordedAt & logs & Hk & Hlim & Hend & _ & _ & _ & Htrace
            & Hlogs & _).
      eexists. split; [exact Htrace|].
      apply TickQuiet; [reflexivity|].
      rewrite <- app_assoc. apply TickDispatch; auto.
      rewrite Hlogs. apply cacheLogs_quiet.
    + exists [EvLog (LogRelevant (title article))].
      split; [|apply TickQuiet; [reflexivity | apply TickNil]].
      rewrite (processArticle_reaches_filter article w s Hreach), Hrel.
      unfold run. unfold bind at 1. unfold log, emit. unfold bind at 1.
      match goal with
      | |- context [formatMessage article ?sen w ?st] =>
          pose proof (formatMessage_state article sen w st) as Hst;
          pose proof (formatMessage_clock article sen w st s eq_refl) as Hcl;
          unfold run in Hst, Hcl;
          destruct (formatMessage article sen w st) as [r st'] eqn:E
      end.
      cbn [fst snd] in Hst, Hcl. unfold run in Hfmt. rewrite Hfmt in Hcl.
      subst r st'. reflexivity.
  - exists []. split; [|apply TickNil].
    rewrite (processArticle_reaches_filter article w s Hreach), Hrel.
    cbn [snd]. unfold afterDedup. cbn [trace]. now rewrite app_nil_r.
Qed.

Lemma forEach_traced {A : Type} (body : A -> M unit) (l : list A) :
  (forall x, Traced (body x)) -> Traced (forEach body l).
Proof.
  intros Hbody. induction l as [|x l IH]; intros w s; cbn [forEach].
  - exists []. split; [now rewrite app_nil_r | apply TickNil].
  - destruct (Hbody x w s) as (evs1 & Ht1 & Hp1).
    unfold run in *. unfold bind.
    destruct (body x w s) as [[[]|e] s1]; cbn [snd] in Ht1.
    + destruct (IH w s1) as (evs2 & Ht2 & Hp2). unfold run in Ht2.
      exists (evs1 ++ evs2). split; [|now apply TickTrace_app].
      now rewrite Ht2, Ht1, app_assoc.
    + exists evs1. auto.
Qed.

Lemma checkFeed_traced (feedUrl : string) : Traced (checkFeed feedUrl).
Proof.
  intros w s. unfold checkFeed. monad_simpl.
  destruct (parseURL w feedUrl) as [error|items].
  - exists [EvLog (LogFetching feedUrl); EvFetch feedUrl; EvLog (ErrFeed feedUrl error)].
    split; [cbn [snd trace]; now rewrite <- !app_assoc|].
    repeat (apply TickQuiet; [reflexivity|]); apply TickNil.
  - match goal with
    | |- context [forEach processArticle items w ?st] =>
        destruct (forEach_traced processArticle items processArticle_traced w st)
          as (evs & Ht & Hp);
        unfold run in Ht;
        destruct (forEach processArticle items w st) as [[[]|e] s1]
    end; cbn [snd trace] in *.
    + exists (EvLog (LogFetching feedUrl) :: EvFetch feedUrl :: evs).
      split; [rewrite Ht; now rewrite <- !app_assoc|].
      repeat (apply TickQuiet; [reflexivity|]); exact Hp.
    + exists ((EvLog (LogFetching feedUrl) :: EvFetch feedUrl :: evs)
              ++ [EvLog (ErrFeed feedUrl e)]).
      split; [rewrite Ht; now rewrite <- !app_assoc|].
      apply TickTrace_app.
      * repeat (apply TickQuiet; [reflexivity|]); exact Hp.
      * apply TickQuiet; [reflexivity | apply TickNil].
Qed.

(** In every tick each recording follows at once the end of a dispatch,
    and the end of each dispatch is followed at once by a recording. *)
Lemma checkNewsFeeds_traced : Traced checkNewsFeeds.
Proof.
  intros w s. unfold checkNewsFeeds. monad_simpl.
  match goal with
  | |- context [forEach checkFeed RSS_FEEDS w ?st] =>
      destruct (forEach_traced checkFeed RSS_FEEDS checkFeed_traced w st)
        as (evs & Ht & Hp)
  end.
  unfold run in Ht. cbn [trace] in Ht.
  exists (EvLog (LogChecking (toLocaleString w (clock s))) :: evs).
  split; [rewrite Ht; now rewrite <- app_assoc|].
  apply TickQuiet; [reflexivity | exact Hp].
Qed.

Lemma checkNewsFeeds_returns (w : World) (s : State) :
  fst (run checkNewsFeeds w s) = Normal tt.
Proof.
  assert (Hfeed : forall url st, fst (run (checkFeed url) w st) = Normal tt).
  { intros url st. unfold checkFeed. monad_simpl.
    destruct (parseURL w url) as [error|items]; [reflexivity|].
    match goal with
    | |- context [forEach processArticle items w ?st'] =>
        destruct (forEach processArticle items w st') as [[[]|e] s1]
    end; reflexivity. }
  unfold checkNewsFeeds. monad_simpl.
  match goal with |- context [forEach checkFeed RSS_FEEDS w ?st] => generalize st end.
  induction RSS_FEEDS as [|url urls IH]; intros st; cbn [forEach]; [reflexivity|].
  unfold bind. specialize (Hfeed url st). unfold run in Hfeed.
  destruct (checkFeed url w st) as [[[]|e] s1]; cbn [fst] in Hfeed;
    [apply IH | discriminate].
Qed.

(** The only waits of a tick are the back-offs after rate-limit errors. *)
Lemma TickTrace_sleeps (w : World) (evs : list Event) (ms : Z) :
  TickTrace w evs -> In (EvSleep ms) evs ->
  exists error, isRateLimit error = true /\ ms = waitTimeOf error.
Proof.
  induction 1 as [|e evs Hq _ IH|m first k final id t evs Hlim Hend _ IH];
    intros Hin.
  - contradiction.
  - destruct Hin as [-> | Hin]; [discriminate | auto].
  - apply in_app_iff in Hin. destruct Hin as [Hin | Hin].
    + apply in_flat_map in Hin. destruct Hin as (i & Hi & Hin).
      apply in_seq in Hi. destruct (Hlim i Hi) as (error & He & Hrl).
      unfold retryBlock in Hin. rewrite He in Hin. cbn in Hin.
      destruct Hin as [H | [H | [H | []]]]; try discriminate.
      inversion H. eauto.
    + apply in_app_iff in Hin. destruct Hin as [Hin | [Hin | Hin]].
      * inversion Hend; subst; cbn in Hin;
          repeat match goal with
                 | H : _ \/ _ |- _ => destruct H
                 | H : False |- _ => contradiction
                 end; discriminate.
      * discriminate.
      * auto.
Qed.

Lemma checkNewsFeeds_waits_only_on_rate_limit (w : World) (s : State) (ms : Z) :
  In (EvSleep ms) (emitted checkNewsFeeds w s) ->
  exists error, isRateLimit error = true /\ ms = waitTimeOf error.
Proof.
  destruct (checkNewsFeeds_traced w s) as (evs & Ht & Hp).
  apply emitted_of_trace in Ht. rewrite Ht. now apply (TickTrace_sleeps w).
Qed.


(** C8 fails on the code: no tick waits between two messages, and
    [MESSAGE_DELAY] plays no part in it.  In every tick the only waits are
    the back-offs after rate-limit errors; and on a tick that finds two
    new relevant entries in the first feed and delivers both at the first
    attempt, the second message is sent right after the first entry is
    recorded, with no wait anywhere. *)
Theorem checkNewsFeeds_dispatches_without_delay :
  (forall (w : World) (s : State) (ms : Z),
      In (EvSleep ms) (emitted checkNewsFeeds w s) ->
      exists error, isRateLimit error = true /\ ms = waitTimeOf error)
  /\
  let w := sampleWorld alwaysDelivered (firstFeedOnly [fedArticle; rallyArticle]) in
  let events := emitted checkNewsFeeds w initialState in
  fst (run checkNewsFeeds w initialState) = Normal tt
  /\ (exists first second,
         filter isPacing events =
           [EvSend first; EvRecord (Some "guid-1") "Fed raises interest rates";
            EvSend second; EvRecord (Some "guid-2") "Stocks surge as rally continues"])
  /\ filter isSleep events = []
  /\ ~ In (EvSleep MESSAGE_DELAY) events.
Proof.
  split; [exact checkNewsFeeds_waits_only_on_rate_limit|].
  cbv zeta.
  set (events := emitted checkNewsFeeds _ initialState).
  assert (Hsleep : filter isSleep events = []) by (vm_compute; reflexivity).
  split; [vm_compute; reflexivity|]. split; [|split].
  - eexists. eexists. vm_compute. reflexivity.
  - exact Hsleep.
  - intros Hin.
    assert (H : In (EvSleep MESSAGE_DELAY) (filter isSleep events))
      by (apply filter_In; split; [exact Hin | reflexivity]).
    rewrite Hsleep in H. exact H.
Qed.

(* ================================================================== *)
(** * Part III: further properties of the code                         *)
(* ================================================================== *)

(** ** Entries that are not dispatched *)

(** X1: an entry that has a title and is not market-relevant is passed
    over in silence: it is neither logged, dispatched nor recorded,
    whatever the caches hold; at most the similarity check purges stale
    titles.  (An item without a title is outside [Article]: for it
    [title.toLowerCase()] throws in the similarity check.) *)
Theorem processArticle_irrelevant_silent
        (w : World) (s : State) (article : Article) :
  isMarketRelevant article = false ->
  let after := snd (run (processArticle article) w s) in
  fst (run (processArticle article) w s) = Normal tt
  /\ emitted (processArticle article) w s = []
  /\ sent after = sent s
  /\ clock after = clock s
  /\ articleCache (cache after) = articleCache (cache s).
Proof.
  intros Hrel after. subst after.
  assert (H : fst (run (processArticle article) w s) = Normal tt /\
              trace (snd (run (processArticle article) w s)) = trace s ++ [] /\
              sent (snd (run (processArticle article) w s)) = sent s /\
              clock (snd (run (processArticle article) w s)) = clock s /\
              articleCache (cache (snd (run (processArticle article) w s)))
              = articleCache (cache s)).
  { unfold processArticle, isSimilarTitleExistsM. monad_simpl.
    destruct (setHas (jsOr (guid article) (link article)) (articleCache (cache s))).
    - cbn [fst snd]. now rewrite app_nil_r.
    - destruct (isSimilarTitleExists (clock s) (title article) (titleCache (cache s)))
        as [[|] titles]; monad_simpl; rewrite ?Hrel; cbn [fst snd cache sent clock trace articleCache];
        now rewrite app_nil_r. }
  destruct H as (Hres & Htrace & Hsent & Hclock & Hids).
  apply emitted_of_trace in Htrace. auto.
Qed.

Lemma processArticle_irrelevant_silent_witness :
  emitted (processArticle
             {| guid := Some "guid-9"; link := None; title := "Local bakery wins award";
                contentSnippet := None; creator := None; author := None;
                isoDate := None |})
          (sampleWorld alwaysDelivered (firstFeedOnly [])) initialState = [].
Proof.
  apply (processArticle_irrelevant_silent
           (sampleWorld alwaysDelivered (firstFeedOnly [])) initialState).
  vm_compute. reflexivity.
Defined.

(** X2: once an entry has been dispatched and recorded, any entry with the
    same identity key ([guid], or [link] when the guid is missing) is
    skipped without a trace, whatever the transport would answer. *)
Theorem processArticle_same_key_skipped
        (w w' : World) (s : State) (article other : Article) (message : string) :
  reachesFilter article s ->
  isMarketRelevant article = true ->
  fst (run (formatMessage article (analyzeSentiment article)) w s) = Normal message ->
  jsOr (guid other) (link other) = jsOr (guid article) (link article) ->
  let recorded := snd (run (processArticle article) w s) in
  run (processArticle other) w' recorded = (Normal tt, recorded).
Proof.
  intros Hreach Hrel Hfmt Hkey recorded.
  destruct (processArticle_dispatch_then_record w s article message Hreach Hrel Hfmt)
    as (k & final & recordedAt & logs & _ & _ & _ & _ & _ & _ & _ & _ & Hcache).
  assert (Hin : setHas (jsOr (guid other) (link other))
                       (articleCache (cache recorded)) = true).
  { apply setHas_iff. subst recorded. rewrite Hcache, Hkey.
    apply addToCache_has. apply Hreach. }
  unfold processArticle. monad_simpl. now rewrite Hin.
Qed.

Lemma processArticle_same_key_skipped_witness :
  let w := sampleWorld chatNotFound (firstFeedOnly []) in
  reachesFilter fedArticle initialState /\
  run (processArticle fedArticle) (sampleWorld alwaysDelivered (firstFeedOnly []))
      (snd (run (processArticle fedArticle) w initialState))
  = (Normal tt, snd (run (processArticle fedArticle) w initialState)).
Proof.
  cbv zeta.
  assert (H : reachesFilter fedArticle initialState) by (split; reflexivity).
  split; [exact H|].
  refine (processArticle_same_key_skipped
            (sampleWorld chatNotFound (firstFeedOnly []))
            (sampleWorld alwaysDelivered (firstFeedOnly []))
            initialState fedArticle fedArticle _ H _ _ _).
  - reflexivity.
  - vm_compute. reflexivity.
  - reflexivity.
Defined.

(** ** The formatter *)

Lemma truthy_jsOr (a b : option string) :
  truthy (jsOr a b) = truthy a || truthy b.
Proof. unfold jsOr. destruct (truthy a) eqn:E; [now rewrite E | reflexivity]. Qed.

(** X10: [formatMessage] leaves the state as it is, and it throws exactly when
    the entry has neither creator nor author and its link is not a URL
    the constructor accepts; the exception is then "Invalid URL". *)
Theorem formatMessage_throws_iff
        (w : World) (s : State) (article : Article) (sen : Sentiment) :
  snd (run (formatMessage article sen) w s) = s
  /\ ((exists e, fst (run (formatMessage article sen) w s) = Throw e) <->
      truthy (creator article) = false /\
      truthy (author article) = false /\
      urlHostname w (jsToString (link article)) = None)
  /\ (forall e, fst (run (formatMessage article sen) w s) = Throw e ->
                e = "Invalid URL").
Proof.
  split; [apply formatMessage_state|].
  assert (Hcases :
            (truthy (creator article) = false /\ truthy (author article) = false /\
             urlHostname w (jsToString (link article)) = None /\
             fst (run (formatMessage article sen) w s) = Throw "Invalid URL")
            \/ ((truthy (creator article) = true \/ truthy (author article) = true \/
                 urlHostname w (jsToString (link article)) <> None) /\
                exists message, fst (run (formatMessage article sen) w s) = Normal message)).
  { unfold formatMessage, sourceOf, publishedOf.
    pose proof (truthy_jsOr (creator article) (author article)) as Hor.
    monad_simpl.
    destruct (truthy (jsOr (creator article) (author article))); monad_simpl.
    - right. split.
      + symmetry in Hor. apply orb_true_iff in Hor. tauto.
      + destruct (truthy (isoDate article)); monad_simpl; eauto.
    - symmetry in Hor. apply orb_false_iff in Hor. destruct Hor as [Hc Ha].
      destruct (urlHostname w (jsToString (link article))) eqn:Hurl; monad_simpl.
      + right. split; [right; right; congruence|].
        destruct (truthy (isoDate article)); monad_simpl; eauto.
      + left. auto. }
  split.
  - split.
    + intros [e He]. destruct Hcases as [(Hc & Ha & Hu & _) | (_ & message & Hm)]; [auto|].
      congruence.
    + intros (Hc & Ha & Hu).
      destruct Hcases as [(_ & _ & _ & H) | ([H | [H | H]] & _)]; eauto; congruence.
  - intros e He. destruct Hcases as [(_ & _ & _ & H) | (_ & message & Hm)]; congruence.
Qed.

(** ** The dispatcher *)

Lemma sendLoop_frame (n : nat) (w : World) (message : string) :
  forall s : State,
  exists evs,
    trace (snd (run (sendLoop n message) w s)) = trace s ++ evs /\
    sent (snd (run (sendLoop n message) w s)) = sent s + countSends evs /\
    (0 < n -> 1 <= countSends evs) /\
    cache (snd (run (sendLoop n message) w s)) = cache s.
Proof.
  induction n as [|n IH]; intros s.
  - exists [EvLog ErrMaxRetries]. cbn. repeat split; auto; lia.
  - unfold run in *. cbn [sendLoop]. monad_simpl.
    destruct (sendMessage w (sent s) message) as [error|] eqn:Hsend.
    + destruct (isRateLimit error) eqn:Hrl; monad_simpl.
      * match goal with
        | |- context [sendLoop n message w ?st] =>
            destruct (IH st) as (evs & Ht & Hs & _ & Hc)
        end.
        cbn [sent cache trace] in *.
        exists (EvSend message :: EvLog (LogRateLimited (waitTimeOf error))
                  :: EvSleep (waitTimeOf error) :: evs).
        repeat split.
        -- rewrite Ht. now rewrite <- !app_assoc.
        -- rewrite Hs. unfold countSends. cbn [filter isSend length]. lia.
        -- intros _. unfold countSends. cbn [filter isSend length]. lia.
        -- exact Hc.
      * exists [EvSend message; EvLog (ErrSending error)].
        cbn [fst snd cache sent trace]. repeat split.
        -- now rewrite <- app_assoc.
        -- cbn. lia.
        -- intros _. cbn. lia.
    + monad_simpl. exists [EvSend message; EvLog LogSent].
      cbn [fst snd cache sent trace]. repeat split.
      * now rewrite <- app_assoc.
      * cbn. lia.
      * intros _. cbn. lia.
Qed.

(** X11: a dispatch calls [bot.sendMessage] at least once, never touches the
    caches, and when the first call resolves it sends once, logs the
    delivery and waits for nothing. *)
Theorem sendToTelegram_frame (w : World) (message : string) (s : State) :
  let after := snd (run (sendToTelegram message) w s) in
  let events := emitted (sendToTelegram message) w s in
  cache after = cache s
  /\ sent after = sent s + countSends events
  /\ 1 <= countSends events
  /\ (sendMessage w (sent s) message = None ->
      events = [EvSend message; EvLog LogSent])
  /\ (forall error, sendMessage w (sent s) message = Some error ->
                    isRateLimit error = false ->
                    events = [EvSend message; EvLog (ErrSending error)]).
Proof.
  intros after events. subst after events. unfold sendToTelegram, maxRetries.
  destruct (sendLoop_frame 3 w message s) as (evs & Ht & Hs & Hone & Hc).
  rewrite (emitted_of_trace _ w s evs Ht).
  split; [exact Hc|]. split; [exact Hs|]. split; [apply Hone; lia|].
  destruct (sendLoop_shape 3 w message s)
    as (k & final & Hk & Hlim & Hend & _ & _ & Htrace).
  rewrite Ht in Htrace. apply app_inv_head in Htrace.
  assert (Hzero : forall r, sendMessage w (sent s) message = r ->
                            (forall e, r = Some e -> isRateLimit e = false) ->
                            k = 0).
  { intros r Hr Hnot. destruct k as [|k]; [reflexivity|exfalso].
    destruct (Hlim (sent s)) as (e & He & Hrl); [lia|].
    rewrite He in Hr. specialize (Hnot e (eq_sym Hr)). congruence. }
  split.
  - intros Hnone.
    assert (k = 0) by (apply (Hzero None Hnone); intros e He; discriminate).
    subst k. rewrite Nat.add_0_r in Hend. cbn in Htrace. subst evs.
    inversion Hend; subst; try congruence; lia.
  - intros error Herr Hrl.
    assert (k = 0)
      by (apply (Hzero (Some error) Herr); intros e He; inversion He; now subst).
    subst k. rewrite Nat.add_0_r in Hend. cbn in Htrace. subst evs.
    inversion Hend; subst; try congruence; lia.
Qed.

Lemma sendToTelegram_frame_witness :
  emitted (sendToTelegram "hello")
          (sampleWorld alwaysDelivered (firstFeedOnly [])) initialState
  = [EvSend "hello"; EvLog LogSent].
Proof.
  apply (proj1 (proj2 (proj2 (proj2 (sendToTelegram_frame
           (sampleWorld alwaysDelivered (firstFeedOnly [])) "hello" initialState))))).
  reflexivity.
Defined.

(** ** Recent titles, further *)

Lemma includes_empty (s : string) : includes s "" = true.
Proof. destruct s; reflexivity. Qed.

Lemma includes_refl (s : string) : includes s s = true.
Proof.
  apply includes_iff. exists EmptyString, EmptyString.
  cbn [append]. now rewrite append_empty_r.
Qed.

(** X4: a title recorded by [addToCache] is found by [isSimilarTitleExists]
    for as long as it is at most one hour old: by the same title, by any
    title with the same normalized form, and by any title whose normalized
    form contains it or is contained in it. *)
Theorem recorded_title_is_similar
        (now later : Z) (articleId : ArticleId) (title other : string) (c : Cache) :
  (later - now <= 3600000)%Z ->
  let titles := titleCache (addToCache now articleId title c) in
  fst (isSimilarTitleExists later title titles) = true
  /\ (normalizeTitle other = normalizeTitle title ->
      fst (isSimilarTitleExists later other titles) = true)
  /\ (isSubstringOf (normalizeTitle other) (normalizeTitle title) \/
      isSubstringOf (normalizeTitle title) (normalizeTitle other) ->
      fst (isSimilarTitleExists later other titles) = true).
Proof.
  intros Hage titles.
  assert (Hgen : forall t, similarTitles (normalizeTitle title) (normalizeTitle t) = true ->
                           fst (isSimilarTitleExists later t titles) = true).
  { intros t Hsim. unfold isSimilarTitleExists.
    apply similarLoop_found_iff.
    exists (normalizeTitle title, now). cbn [fst]. split; [|split; [|exact Hsim]].
    - subst titles. unfold addToCache. cbn [titleCache]. apply mapSet_In.
    - apply isFresh_iff. exact Hage. }
  split; [|split].
  - apply Hgen. unfold similarTitles. now rewrite includes_refl.
  - intros Heq. apply Hgen. rewrite Heq. unfold similarTitles.
    now rewrite includes_refl.
  - intros H. apply Hgen. now apply similarTitles_iff.
Qed.

Lemma recorded_title_is_similar_witness :
  fst (isSimilarTitleExists 1000 "Fed raises interest rates again"
         (titleCache (addToCache 0 (Some "guid-1") "  FED raises interest rates "
                                 {| articleCache := []; titleCache := [] |}))) = true.
Proof.
  refine (proj2 (proj2 (recorded_title_is_similar 0 1000 (Some "guid-1")
            "  FED raises interest rates " "Fed raises interest rates again"
            {| articleCache := []; titleCache := [] |} _)) _).
  - lia.
  - right. exists EmptyString, " again". reflexivity.
Defined.

(** X5: blank titles match everything.  A title that is empty once
    normalized is similar to every cached title that is not stale; and
    while an empty title is cached and not stale, every title is similar
    to it. *)
Theorem blank_title_matches_everything
        (now : Z) (title : string) (titles : list (string * Z)) :
  (normalizeTitle title = EmptyString ->
   (exists entry, In entry titles /\ (now - snd entry <= 3600000)%Z) ->
   fst (isSimilarTitleExists now title titles) = true)
  /\ ((exists timestamp, In (EmptyString, timestamp) titles /\
                         (now - timestamp <= 3600000)%Z) ->
      fst (isSimilarTitleExists now title titles) = true).
Proof.
  unfold isSimilarTitleExists. split.
  - intros Hblank (entry & Hin & Hage). apply similarLoop_found_iff.
    exists entry. split; [exact Hin|]. split; [now apply isFresh_iff|].
    rewrite Hblank. unfold similarTitles. now rewrite includes_empty.
  - intros (t & Hin & Hage). apply similarLoop_found_iff.
    exists (EmptyString, t). split; [exact Hin|]. split; [now apply isFresh_iff|].
    cbn [fst]. unfold similarTitles. now rewrite includes_empty, orb_true_r.
Qed.

Lemma blank_title_matches_everything_witness :
  fst (isSimilarTitleExists 5000 "Oil prices tumble"
         (titleCache (addToCache 0 (Some "guid-7") "   "
                                 {| articleCache := []; titleCache := [] |}))) = true.
Proof.
  apply (proj2 (blank_title_matches_everything 5000 "Oil prices tumble"
                  (titleCache (addToCache 0 (Some "guid-7") "   "
                                 {| articleCache := []; titleCache := [] |})))).
  exists 0%Z. split; [now left | lia].
Defined.

(** X3: an entry whose title is similar to a cached title that is not stale
    is skipped: nothing is logged, sent or recorded for it. *)
Theorem processArticle_similar_title_skipped
        (w : World) (s : State) (article : Article) (cached : string) (timestamp : Z) :
  In (cached, timestamp) (titleCache (cache s)) ->
  (clock s - timestamp <= 3600000)%Z ->
  similarTitles cached (normalizeTitle (title article)) = true ->
  let after := snd (run (processArticle article) w s) in
  fst (run (processArticle article) w s) = Normal tt
  /\ emitted (processArticle article) w s = []
  /\ sent after = sent s
  /\ articleCache (cache after) = articleCache (cache s).
Proof.
  intros Hin Hage Hsim after. subst after.
  assert (Hfound : fst (isSimilarTitleExists (clock s) (title article)
                          (titleCache (cache s))) = true).
  { unfold isSimilarTitleExists. apply similarLoop_found_iff.
    exists (cached, timestamp). split; [exact Hin|].
    split; [now apply isFresh_iff | exact Hsim]. }
  assert (H : fst (run (processArticle article) w s) = Normal tt /\
              trace (snd (run (processArticle article) w s)) = trace s ++ [] /\
              sent (snd (run (processArticle article) w s)) = sent s /\
              articleCache (cache (snd (run (processArticle article) w s)))
              = articleCache (cache s)).
  { unfold processArticle, isSimilarTitleExistsM. monad_simpl.
    destruct (setHas (jsOr (guid article) (link article)) (articleCache (cache s))).
    - cbn [fst snd]. now rewrite app_nil_r.
    - destruct (isSimilarTitleExists (clock s) (title article) (titleCache (cache s)))
        as [found titles].
      cbn [fst] in Hfound. subst found. monad_simpl.
      cbn [fst snd cache sent trace articleCache]. now rewrite app_nil_r. }
  destruct H as (Hres & Htrace & Hsent & Hids).
  apply emitted_of_trace in Htrace. auto.
Qed.

Lemma processArticle_similar_title_skipped_witness :
  let s := {| cache := {| articleCache := [];
                          titleCache := [("fed raises interest rates", 0%Z)] |};
              sent := 0; clock := 1000; trace := [] |} in
  emitted (processArticle rallyArticle) (sampleWorld alwaysDelivered (firstFeedOnly [])) s
  <> [] /\
  emitted (processArticle fedArticle) (sampleWorld alwaysDelivered (firstFeedOnly [])) s
  = [].
Proof.
  cbv zeta. split; [vm_compute; discriminate|].
  apply (processArticle_similar_title_skipped
           (sampleWorld alwaysDelivered (firstFeedOnly []))
           {| cache := {| articleCache := [];
                          titleCache := [("fed raises interest rates", 0%Z)] |};
              sent := 0; clock := 1000; trace := [] |}
           fedArticle "fed raises interest rates" 0%Z).
  - now left.
  - cbn. lia.
  - reflexivity.
Defined.

Lemma similarLoop_idempotent (now : Z) (n : string) (entries : list (string * Z)) :
  similarLoop now n (snd (similarLoop now n entries)) = similarLoop now n entries.
Proof.
  induction entries as [|[k t] rest IH]; cbn [similarLoop]; [reflexivity|].
  destruct (now - t >? TITLE_WINDOW)%Z eqn:Hstale; [exact IH|].
  destruct (includes k n || includes n k) eqn:Hsim.
  - cbn [snd similarLoop]. now rewrite Hstale, Hsim.
  - destruct (similarLoop now n rest) as [found rest'] eqn:Hloop.
    cbn [snd similarLoop] in *. rewrite Hstale, Hsim, IH. reflexivity.
Qed.

Lemma similarLoop_ignores_stale (now : Z) (n : string) (entries : list (string * Z)) :
  fst (similarLoop now n (filter (isFresh now) entries)) =
  fst (similarLoop now n entries).
Proof.
  induction entries as [|[k t] rest IH]; cbn [similarLoop filter]; [reflexivity|].
  unfold isFresh at 1, isStale at 1. cbn [snd].
  destruct (now - t >? TITLE_WINDOW)%Z eqn:Hstale; cbn [negb]; [exact IH|].
  cbn [similarLoop]. rewrite Hstale.
  destruct (includes k n || includes n k); [reflexivity|].
  destruct (similarLoop now n rest) as [f r].
  destruct (similarLoop now n (filter (isFresh now) rest)) as [f' r'].
  cbn [fst] in *. exact IH.
Qed.

(** X6: the purge is housekeeping only: the answer of
    [isSimilarTitleExists] is the answer on the map without its stale
    entries; asking again at the same time gives the same answer and
    leaves the map as the first call left it; and what a call leaves in
    the map was in it before. *)
Theorem isSimilarTitleExists_idempotent
        (now : Z) (title : string) (titles : list (string * Z)) :
  let remaining := snd (isSimilarTitleExists now title titles) in
  fst (isSimilarTitleExists now title (filter (isFresh now) titles))
  = fst (isSimilarTitleExists now title titles)
  /\ isSimilarTitleExists now title remaining = isSimilarTitleExists now title titles
  /\ (forall entry, In entry remaining -> In entry titles)
  /\ length remaining <= length titles.
Proof.
  intros remaining. subst remaining. unfold isSimilarTitleExists.
  split; [apply similarLoop_ignores_stale|].
  split; [apply similarLoop_idempotent|].
  destruct (similarLoop_remaining now (normalizeTitle title) titles)
    as (scanned & unreached & Heq & Hrem & _ & _).
  rewrite Hrem, Heq. split.
  - intros entry Hin. apply in_app_iff in Hin. apply in_app_iff.
    destruct Hin as [Hin | Hin]; [left | now right].
    now apply filter_In in Hin.
  - rewrite !length_app. pose proof (filter_length_le (isFresh now) scanned). lia.
Qed.

Lemma hasKey_iff (k : string) (titles : list (string * Z)) :
  hasKey k titles = true <-> In k (titleKeys titles).
Proof.
  unfold hasKey. rewrite existsb_exists. split.
  - intros (x & Hin & Heq). apply String.eqb_eq in Heq. now subst.
  - intros Hin. exists k. split; [exact Hin | apply String.eqb_refl].
Qed.

Lemma mapSet_keys (k : string) (v : Z) (m : list (string * Z)) :
  titleKeys (mapSet k v m) =
  if hasKey k m then titleKeys m else titleKeys m ++ [k].
Proof.
  unfold hasKey, titleKeys.
  induction m as [|[k' v'] m IH]; [reflexivity|].
  cbn [mapSet map fst existsb].
  destruct (String.eqb_spec k k') as [->|Hne]; cbn [orb map fst].
  - reflexivity.
  - rewrite IH. destruct (existsb (String.eqb k) (map fst m)); reflexivity.
Qed.

Lemma mapSet_other (k k' : string) (v t : Z) (m : list (string * Z)) :
  k' <> k -> In (k', t) (mapSet k v m) <-> In (k', t) m.
Proof.
  intros Hne. induction m as [|[k0 v0] m IH]; cbn [mapSet].
  - split; [intros [H | []]; inversion H; congruence | intros []].
  - destruct (String.eqb_spec k k0) as [->|Hk]; cbn [In].
    + split; (intros [H | H]; [inversion H; congruence | now right]).
    + rewrite IH. reflexivity.
Qed.

Lemma mapSet_value (k : string) (v t : Z) (m : list (string * Z)) :
  NoDup (titleKeys m) -> In (k, t) (mapSet k v m) -> t = v.
Proof.
  induction m as [|[k0 v0] m IH]; cbn [mapSet titleKeys map fst]; intros Hnd Hin.
  - destruct Hin as [H | []]. now inversion H.
  - inversion Hnd as [|? ? Hnotin Hnd']; subst.
    destruct (String.eqb_spec k k0) as [->|Hk].
    + destruct Hin as [H | H]; [now inversion H|].
      exfalso. apply Hnotin. change k0 with (fst (k0, t)). now apply in_map.
    + destruct Hin as [H | H]; [inversion H; congruence | auto].
Qed.

(** X7: recording a title keeps one entry per normalized title: a title that
    is new goes to the end of the map, one that is cached keeps its place;
    either way its timestamp is the time of the recording, and the other
    entries are as they were. *)
Theorem addToCache_title_refreshed
        (now : Z) (articleId : ArticleId) (title : string) (c : Cache) :
  NoDup (titleKeys (titleCache c)) ->
  let key := normalizeTitle title in
  let titles := titleCache (addToCache now articleId title c) in
  NoDup (titleKeys titles)
  /\ titleKeys titles =
       (if hasKey key (titleCache c) then titleKeys (titleCache c)
        else titleKeys (titleCache c) ++ [key])
  /\ (forall t, In (key, t) titles <-> t = now)
  /\ (forall k t, k <> key -> (In (k, t) titles <-> In (k, t) (titleCache c))).
Proof.
  intros Hnd key titles. subst titles. unfold addToCache. cbn [titleCache].
  fold key. split; [|split; [|split]].
  - rewrite mapSet_keys. destruct (hasKey key (titleCache c)) eqn:E; [exact Hnd|].
    apply NoDup_app; [exact Hnd | repeat constructor; auto |].
    intros k Hk [<- | []]. apply hasKey_iff in Hk. congruence.
  - apply mapSet_keys.
  - intros t. split.
    + now apply mapSet_value.
    + intros ->. apply mapSet_In.
  - intros k t Hne. now apply mapSet_other.
Qed.

Lemma addToCache_title_refreshed_witness :
  titleCache (addToCache 9000 (Some "guid-2") " Fed Raises Interest Rates"
                {| articleCache := [Some "guid-1"];
                   titleCache := [("fed raises interest rates", 10%Z);
                                  ("stocks surge", 20%Z)] |})
  = [("fed raises interest rates", 9000%Z); ("stocks surge", 20%Z)]
  /\ forall t,
      In ("fed raises interest rates", t)
         (titleCache (addToCache 9000 (Some "guid-2") " Fed Raises Interest Rates"
                        {| articleCache := [Some "guid-1"];
                           titleCache := [("fed raises interest rates", 10%Z);
                                          ("stocks surge", 20%Z)] |}))
      <-> t = 9000%Z.
Proof.
  split; [reflexivity|].
  apply (proj1 (proj2 (proj2 (addToCache_title_refreshed 9000 (Some "guid-2")
           " Fed Raises Interest Rates"
           {| articleCache := [Some "guid-1"];
              titleCache := [("fed raises interest rates", 10%Z);
                             ("stocks surge", 20%Z)] |}
           ltac:(repeat constructor; cbn; intuition discriminate))))).
Defined.

(** ** Normalized titles *)

Lemma isSpace_toLowerChar (c : ascii) : isSpace (toLowerChar c) = isSpace c.
Proof. destruct c as [[] [] [] [] [] [] [] []]; reflexivity. Qed.

Lemma allSpace_toLowerCase (s : string) : allSpace (toLowerCase s) = allSpace s.
Proof.
  induction s as [|c s IH]; cbn [toLowerCase allSpace]; [reflexivity|].
  now rewrite isSpace_toLowerChar, IH.
Qed.

Lemma trimStart_allSpace (pre s : string) :
  allSpace pre = true -> trimStart (pre ++ s) = trimStart s.
Proof.
  induction pre as [|c pre IH]; cbn [allSpace append trimStart]; intros H;
    [reflexivity|].
  apply andb_true_iff in H. destruct H as [Hc Hp]. rewrite Hc. auto.
Qed.

Lemma trimEnd_allSpace (post : string) : allSpace post = true -> trimEnd post = "".
Proof.
  induction post as [|c post IH]; cbn [allSpace trimEnd]; intros H; [reflexivity|].
  apply andb_true_iff in H. destruct H as [Hc Hp]. now rewrite (IH Hp), Hc.
Qed.

Lemma trimEnd_app_allSpace (s post : string) :
  allSpace post = true -> trimEnd (s ++ post) = trimEnd s.
Proof.
  intros H. induction s as [|c s IH]; cbn [append trimEnd].
  - now apply trimEnd_allSpace.
  - now rewrite IH.
Qed.

Lemma trim_app_allSpace (s post : string) :
  allSpace post = true -> trim (s ++ post) = trim s.
Proof.
  intros H. unfold trim. induction s as [|c s IH]; cbn [append trimStart].
  - pose proof (trimStart_allSpace post "" H) as Hs.
    rewrite append_empty_r in Hs. now rewrite Hs.
  - destruct (isSpace c); [exact IH|].
    change (String c (s ++ post)) with (String c s ++ post)%string.
    now apply trimEnd_app_allSpace.
Qed.

(** X8: for titles of ASCII characters, the key
    [title.toLowerCase().trim()] ignores the case of the letters A to Z
    and any TAB, LF, VT, FF, CR and SPACE at either end: two such titles
    that differ only in these have the same key, and so stand for the same
    entry of [titleCache]. *)
Theorem normalizeTitle_ignores_case_and_margins
        (pre post title other : string) :
  isAsciiString title = true ->
  isAsciiString other = true ->
  allSpace pre = true ->
  allSpace post = true ->
  toLowerCase title = toLowerCase other ->
  normalizeTitle (pre ++ title ++ post) = normalizeTitle other.
Proof.
  intros _ _ Hpre Hpost Hcase. unfold normalizeTitle.
  rewrite !toLowerCase_app, Hcase. unfold trim at 1.
  rewrite trimStart_allSpace by (now rewrite allSpace_toLowerCase).
  fold (trim (toLowerCase other ++ toLowerCase post)).
  apply trim_app_allSpace. now rewrite allSpace_toLowerCase.
Qed.

Lemma normalizeTitle_ignores_case_and_margins_witness :
  normalizeTitle ("  " ++ "FED Raises Rates" ++ " ") = normalizeTitle "fed raises rates"
  /\ normalizeTitle "fed raises rates" = "fed raises rates".
Proof.
  split; [|reflexivity].
  apply normalizeTitle_ignores_case_and_margins; reflexivity.
Defined.

(** ** Seen set, further *)

Lemma NoDup_skipn_In {A : Type} (l : list A) (m i : nat) (x : A) :
  NoDup l -> nth_error l i = Some x -> (In x (skipn m l) <-> m <= i).
Proof.
  intros Hnd Hi. split.
  - intros Hin. apply In_nth_error in Hin. destruct Hin as [j Hj].
    rewrite nth_error_skipn in Hj.
    assert (i = m + j).
    { apply (proj1 (NoDup_nth_error l) Hnd).
      - apply nth_error_Some. congruence.
      - congruence. }
    lia.
  - intros Hle. apply (nth_error_In _ (i - m)).
    rewrite nth_error_skipn. now replace (m + (i - m)) with i by lia.
Qed.

(** X9: looking up after recording.  With at most 1000 identifiers in the
    seen set, the identifier just recorded is in it afterwards, and so is
    every identifier that was there unless the set overflows; it never
    holds an identifier that was not inserted; and on overflow the
    identifier inserted at position [i] stays exactly when it is among the
    last 500, so the oldest ones are forgotten and their entries can be
    dispatched again. *)
Theorem addToCache_lookup_and_eviction
        (now : Z) (articleId : ArticleId) (title : string) (c : Cache) :
  NoDup (articleCache c) ->
  let ids := setAdd articleId (articleCache c) in
  let kept := articleCache (addToCache now articleId title c) in
  (length (articleCache c) <= 1000 -> setHas articleId kept = true)
  /\ (forall x, setHas x kept = true -> x = articleId \/ setHas x (articleCache c) = true)
  /\ (length ids <= 1000 ->
      forall x, setHas x (articleCache c) = true -> setHas x kept = true)
  /\ (1000 < length ids ->
      forall i x, nth_error ids i = Some x ->
                  (setHas x kept = true <-> length ids - 500 <= i)).
Proof.
  intros Hnd ids kept.
  assert (Hids : NoDup ids) by (now apply setAdd_NoDup).
  assert (Hkept : kept = if 1000 <? length ids then sliceLast 500 ids else ids).
  { subst kept. unfold addToCache. cbn [articleCache]. fold ids.
    unfold cacheOverflows. change (MAX_CACHE_SIZE / 2) with 500.
    change MAX_CACHE_SIZE with 1000.
    destruct (1000 <? length ids); [|reflexivity].
    apply refill_NoDup. now apply NoDup_skipn. }
  assert (Hsub : forall x, In x kept -> In x ids).
  { intros x. rewrite Hkept. destruct (1000 <? length ids); [|auto].
    unfold sliceLast. intros Hin.
    rewrite <- (firstn_skipn (length ids - 500) ids). apply in_app_iff. now right. }
  assert (Hin_ids : forall x, In x ids <-> x = articleId \/ In x (articleCache c)).
  { intros x. subst ids. unfold setAdd.
    destruct (setHas articleId (articleCache c)) eqn:E.
    - apply setHas_iff in E. split; [now right | intros [-> | H]; auto].
    - rewrite in_app_iff. cbn [In]. intuition. }
  split; [|split; [|split]].
  - intros Hlen. apply setHas_iff.
    destruct (setHas articleId (articleCache c)) eqn:E.
    + assert (Hsame : ids = articleCache c) by (subst ids; unfold setAdd; now rewrite E).
      rewrite Hkept, Hsame.
      destruct (1000 <? length (articleCache c)) eqn:E2.
      * apply Nat.ltb_lt in E2. lia.
      * now apply setHas_iff.
    + subst kept. now apply addToCache_has.
  - intros x Hx. apply setHas_iff in Hx. apply Hsub, Hin_ids in Hx.
    destruct Hx as [-> | Hx]; [now left | right; now apply setHas_iff].
  - intros Hlen x Hx. apply setHas_iff. rewrite Hkept.
    destruct (1000 <? length ids) eqn:E; [apply Nat.ltb_lt in E; lia|].
    apply Hin_ids. right. now apply setHas_iff.
  - intros Hover i x Hi. rewrite setHas_iff, Hkept.
    apply Nat.ltb_lt in Hover. rewrite Hover. unfold sliceLast.
    now apply NoDup_skipn_In.
Qed.

Lemma addToCache_lookup_and_eviction_witness :
  NoDup (sampleIds 1000) /\
  setHas (sampleId 0)
         (articleCache (addToCache 0 (sampleId 1000) "Fed raises interest rates"
                          {| articleCache := sampleIds 1000; titleCache := [] |}))
  = false /\
  setHas (sampleId 1000)
         (articleCache (addToCache 0 (sampleId 1000) "Fed raises interest rates"
                          {| articleCache := sampleIds 1000; titleCache := [] |}))
  = true.
Proof.
  assert (H : NoDup (sampleIds 1000))
    by (apply nodupb_sound; vm_compute; reflexivity).
  split; [exact H|]. split; [vm_compute; reflexivity|].
  apply (proj1 (addToCache_lookup_and_eviction 0 (sampleId 1000)
                  "Fed raises interest rates"
                  {| articleCache := sampleIds 1000; titleCache := [] |} H)).
  apply Nat.leb_le. vm_compute. reflexivity.
Defined.

(** ** Waiting times *)

Lemma parseDigits_lower_bound (digits : string) :
  forall acc, (0 <= acc)%Z -> (0 <= parseDigits acc digits)%Z.
Proof.
  induction digits as [|c digits IH]; intros acc Hacc; cbn [parseDigits];
    [exact Hacc|].
  apply IH. lia.
Qed.

Lemma toLowerCase_length (s : string) :
  String.length (toLowerCase s) = String.length s.
Proof. induction s; simpl; congruence. Qed.

Lemma retryAfterDigits_includes (error digits : string) :
  retryAfterDigits error = Some digits ->
  includes (toLowerCase error) "retry after " = true.
Proof.
  induction error as [|c error IH]; intros H.
  - cbn in H. discriminate.
  - cbn [retryAfterDigits] in H. cbn [toLowerCase includes].
    destruct (prefix "retry after " (toLowerCase (String c error))) eqn:Hp.
    + cbn [toLowerCase] in Hp. now rewrite Hp.
    + apply orb_true_iff. right. apply IH. exact H.
Qed.

Lemma takeDigits_app (digits rest : string) :
  allDigits digits = true -> startsWithDigit rest = false ->
  takeDigits (digits ++ rest) = digits.
Proof.
  intros Hd Hr. induction digits as [|c digits IH]; cbn [append takeDigits].
  - destruct rest as [|r rest]; [reflexivity|].
    cbn [startsWithDigit] in Hr. cbn [takeDigits]. now rewrite Hr.
  - cbn [allDigits] in Hd. apply andb_true_iff in Hd. destruct Hd as [Hc Hd].
    now rewrite Hc, IH.
Qed.

Lemma dropChars_app (a b : string) : dropChars (String.length a) (a ++ b) = b.
Proof. induction a as [|c a IH]; [destruct b; reflexivity | exact IH]. Qed.

Lemma prefix_app_short (k x y : string) :
  prefix k (x ++ y) = true -> String.length k <= String.length x ->
  prefix k x = true.
Proof.
  revert x; induction k as [|c k IH]; intros x Hp Hlen.
  - destruct x; reflexivity.
  - destruct x as [|d x]; [cbn in Hlen; lia|].
    cbn [append prefix] in *. destruct (ascii_dec c d); [|discriminate].
    apply IH; [exact Hp | cbn in Hlen; lia].
Qed.

(** When the phrase does not start anywhere in [pre], the leftmost match
    of [/retry after (\d+)/i] in [pre ++ phrase ++ digits ++ rest] is the
    one at [phrase]. *)
Lemma retryAfterDigits_at (pre phrase digits rest : string) :
  toLowerCase phrase = "retry after " ->
  allDigits digits = true -> digits <> EmptyString ->
  startsWithDigit rest = false ->
  includes (toLowerCase pre ++ "retry after") "retry after " = false ->
  retryAfterDigits (pre ++ phrase ++ digits ++ rest) = Some digits.
Proof.
  intros Hphrase Hd Hne Hrest.
  assert (Hlen : String.length phrase = 12).
  { rewrite <- toLowerCase_length, Hphrase. reflexivity. }
  assert (Hhere : retryAfterDigits (phrase ++ digits ++ rest) = Some digits).
  { destruct phrase as [|p phrase]; [discriminate|].
    cbn [append retryAfterDigits].
    change (String p (phrase ++ digits ++ rest))
      with (String p phrase ++ digits ++ rest)%string.
    rewrite toLowerCase_app, Hphrase.
    replace (prefix "retry after " ("retry after " ++ toLowerCase (digits ++ rest)))
      with true by (symmetry; apply prefix_iff; eauto).
    rewrite <- Hlen at 1. rewrite dropChars_app, takeDigits_app by assumption.
    destruct digits; [congruence | reflexivity]. }
  induction pre as [|c pre IH]; intros Hpre; [exact Hhere|].
  cbn [append toLowerCase includes] in Hpre.
  apply orb_false_iff in Hpre. destruct Hpre as [Hp Hpre].
  cbn [append retryAfterDigits].
  assert (Hno : prefix "retry after "
                  (toLowerCase (String c (pre ++ phrase ++ digits ++ rest))) = false).
  { apply not_true_is_false. intros Htrue. 
    assert (Hsplit : toLowerCase (String c (pre ++ phrase ++ digits ++ rest)) =
                     (String (toLowerChar c) (toLowerCase pre ++ "retry after")
                      ++ " " ++ toLowerCase (digits ++ rest))%string).
    { cbn [toLowerCase append]. f_equal.
      rewrite !toLowerCase_app, Hphrase.
      rewrite !append_assoc. reflexivity. }
    rewrite Hsplit in Htrue. apply prefix_app_short in Htrue.
    - congruence.
    - cbn [String.length]. rewrite append_length. cbn. lia. }
  rewrite Hno. apply IH. exact Hpre.
Qed.

Lemma parseDigits_bounds (digits : string) :
  allDigits digits = true ->
  forall acc, (0 <= acc)%Z ->
    (acc * 10 ^ Z.of_nat (String.length digits) <= parseDigits acc digits
     < (acc + 1) * 10 ^ Z.of_nat (String.length digits))%Z.
Proof.
  induction digits as [|c digits IH]; intros Hd acc Hacc.
  - cbn [parseDigits String.length Z.of_nat]. rewrite Z.pow_0_r. lia.
  - cbn [allDigits] in Hd. apply andb_true_iff in Hd. destruct Hd as [Hc Hd].
    cbn [parseDigits String.length]. rewrite Nat2Z.inj_succ, Z.pow_succ_r by lia.
    unfold isDigit, inRange in Hc. apply andb_true_iff in Hc.
    destruct Hc as [Hlo Hhi]. apply Nat.leb_le in Hlo, Hhi.
    assert (Hdig : (0 <= Z.of_nat (charCode c - 48) <= 9)%Z) by lia.
    specialize (IH Hd (acc * 10 + Z.of_nat (charCode c - 48))%Z ltac:(lia)).
    assert (Hpow : (0 < 10 ^ Z.of_nat (String.length digits))%Z)
      by (apply Z.pow_pos_nonneg; lia).
    nia.
Qed.

(** X13: the wait after a rate-limit error is the default of 30 s
    whenever the message does not hold the phrase "retry after " (in any
    case of its letters); and when the first such phrase is followed by a
    run of at most twelve digits, the wait is that number of seconds: the
    number is below 10^12 and the wait in milliseconds below 2^53, the
    range in which the numbers of JavaScript are exact. *)
Theorem waitTimeOf_spec (error : string) :
  (includes (toLowerCase error) "retry after " = false ->
   waitTimeOf error = 30000%Z)
  /\ (forall pre phrase digits rest,
         error = (pre ++ phrase ++ digits ++ rest)%string ->
         toLowerCase phrase = "retry after " ->
         allDigits digits = true -> digits <> EmptyString ->
         String.length digits <= 12 ->
         startsWithDigit rest = false ->
         includes (toLowerCase pre ++ "retry after") "retry after " = false ->
         waitTimeOf error = (parseInt digits * 1000)%Z /\
         (0 <= parseInt digits < 10 ^ 12)%Z /\
         (0 <= waitTimeOf error < 2 ^ 53)%Z).
Proof.
  split.
  - intros Hno. unfold waitTimeOf.
    destruct (retryAfterDigits error) as [digits|] eqn:E; [|reflexivity].
    apply retryAfterDigits_includes in E. congruence.
  - intros pre phrase digits rest -> Hphrase Hd Hne Hlen Hrest Hpre.
    assert (Hw : waitTimeOf (pre ++ phrase ++ digits ++ rest)
                 = (parseInt digits * 1000)%Z).
    { unfold waitTimeOf. now rewrite (retryAfterDigits_at pre phrase digits rest). }
    assert (Hb : (0 <= parseInt digits < 10 ^ 12)%Z).
    { unfold parseInt.
      pose proof (parseDigits_bounds digits Hd 0%Z ltac:(lia)) as H.
      assert (Hp : (10 ^ Z.of_nat (String.length digits) <= 10 ^ 12)%Z)
        by (apply Z.pow_le_mono_r; lia).
      lia. }
    split; [exact Hw|]. split; [exact Hb|].
    rewrite Hw. change (2 ^ 53)%Z with 9007199254740992%Z.
    change (10 ^ 12)%Z with 1000000000000%Z in Hb. lia.
Qed.

Lemma waitTimeOf_spec_witness :
  waitTimeOf "ETELEGRAM: 429 Too Many Requests: Retry After 35, please" = 35000%Z.
Proof.
  apply (proj2 (waitTimeOf_spec
           "ETELEGRAM: 429 Too Many Requests: Retry After 35, please")
           "ETELEGRAM: 429 Too Many Requests: " "Retry After " "35" ", please");
    try reflexivity.
  - discriminate.
  - cbn. lia.
Defined.

(** ** What one entry does, case by case *)

Lemma processArticle_outcomes (article : Article) (w : World) (s : State) :
  let after := snd (run (processArticle article) w s) in
  let articleId := jsOr (guid article) (link article) in
  let deduped := cache (afterDedup (title article) s) in
  (trace after = trace s ++ [] /\
   (cache after = cache s \/ cache after = deduped))
  \/ (trace after = trace s ++ [EvLog (LogRelevant (title article))] /\
      cache after = deduped)
  \/ (exists message k final recordedAt,
         (forall i, sent s <= i < sent s + k -> rateLimitedAt w message i) /\
         DispatchEnd w message (sent s + k) k 3 final /\
         trace after =
           trace s ++
           EvLog (LogRelevant (title article))
             :: (flat_map (retryBlock w message) (seq (sent s) k) ++ final)
             ++ EvRecord articleId (title article)
             :: cacheLogs recordedAt articleId (title article) deduped /\
         cache after = addToCache recordedAt articleId (title article) deduped).
Proof.
  intros after articleId deduped. subst after articleId deduped.
  destruct (setHas (jsOr (guid article) (link article)) (articleCache (cache s)))
    eqn:Hseen.
  { left. unfold processArticle. monad_simpl. rewrite Hseen. cbn [snd].
    rewrite app_nil_r. auto. }
  destruct (fst (isSimilarTitleExists (clock s) (title article)
                   (titleCache (cache s)))) eqn:Hsim.
  { left. unfold processArticle, isSimilarTitleExistsM, afterDedup. monad_simpl.
    rewrite Hseen.
    destruct (isSimilarTitleExists (clock s) (title article) (titleCache (cache s)))
      as [found titles].
    cbn [fst] in Hsim. subst found. monad_simpl. cbn [snd cache trace].
    rewrite app_nil_r. auto. }
  assert (Hreach : reachesFilter article s) by (split; assumption).
  destruct (isMarketRelevant article) eqn:Hrel.
  - destruct (fst (run (formatMessage article (analyzeSentiment article)) w s))
      as [message|e] eqn:Hfmt.
    + right. right.
      destruct (processArticle_dispatch_then_record w s article message
                  Hreach Hrel Hfmt)
        as (k & final & recordedAt & logs & Hk & Hlim & Hend & _ & _ & _ & Htrace
            & Hlogs & Hcache).
      exists message, k, final, recordedAt. rewrite <- Hlogs. auto.
    + right. left.
      assert (Hrun : run (processArticle article) w s =
                     (Throw e,
                      {| cache := cache (afterDedup (title article) s);
                         sent := sent s; clock := clock s;
                         trace := trace s ++ [EvLog (LogRelevant (title article))] |})).
      { rewrite (processArticle_reaches_filter article w s Hreach), Hrel.
        unfold run. unfold bind at 1. unfold log, emit. unfold bind at 1.
        match goal with
        | |- context [formatMessage article ?sen w ?st] =>
            pose proof (formatMessage_state article sen w st) as Hst;
            pose proof (formatMessage_clock article sen w st s eq_refl) as Hcl;
            unfold run in Hst, Hcl;
            destruct (formatMessage article sen w st) as [r st'] eqn:E
        end.
        cbn [fst snd] in Hst, Hcl. unfold run in Hfmt. rewrite Hfmt in Hcl.
        subst r st'. reflexivity. }
      rewrite Hrun. cbn [snd cache trace]. auto.
  - left. rewrite (processArticle_reaches_filter article w s Hreach), Hrel.
    cbn [snd]. unfold afterDedup. cbn [trace cache]. rewrite app_nil_r. auto.
Qed.

(** ** Invariants of the caches *)

Lemma NoDup_map_filter_app {A B : Type} (g : A -> B) (f : A -> bool) (a b : list A) :
  NoDup (map g (a ++ b)) -> NoDup (map g (filter f a ++ b)).
Proof.
  induction a as [|x a IH]; cbn [app filter map]; intros H; [exact H|].
  inversion H as [|? ? Hnotin Hnd]; subst.
  destruct (f x); [|auto]. cbn [app map]. constructor; [|auto].
  intros Hin. apply Hnotin. rewrite map_app in *. apply in_app_iff in Hin.
  apply in_app_iff. destruct Hin as [Hin | Hin]; [left | now right].
  apply in_map_iff in Hin. destruct Hin as (y & Hy & Hin).
  apply filter_In in Hin. apply in_map_iff. exists y. tauto.
Qed.

Lemma isSimilarTitleExists_keys_NoDup (now : Z) (title : string)
      (titles : list (string * Z)) :
  NoDup (titleKeys titles) ->
  NoDup (titleKeys (snd (isSimilarTitleExists now title titles))).
Proof.
  intros H. unfold isSimilarTitleExists.
  destruct (similarLoop_remaining now (normalizeTitle title) titles)
    as (scanned & unreached & Heq & Hrem & _ & _).
  rewrite Hrem. rewrite Heq in H. unfold titleKeys in *.
  now apply NoDup_map_filter_app.
Qed.

Lemma afterDedup_invariant (title : string) (s : State) :
  cacheInvariant (cache s) -> cacheInvariant (cache (afterDedup title s)).
Proof.
  intros (Hids & Hlen & Hkeys). unfold afterDedup, cacheInvariant.
  cbn [cache articleCache titleCache].
  repeat split; auto. now apply isSimilarTitleExists_keys_NoDup.
Qed.

Lemma addToCache_invariant (now : Z) (articleId : ArticleId) (title : string)
      (c : Cache) :
  cacheInvariant c -> cacheInvariant (addToCache now articleId title c).
Proof.
  intros (Hids & Hlen & Hkeys). unfold cacheInvariant, addToCache.
  cbn [articleCache titleCache]. unfold cacheOverflows.
  change (MAX_CACHE_SIZE / 2) with 500. change MAX_CACHE_SIZE with 1000 in *.
  set (ids := setAdd articleId (articleCache c)).
  assert (Hnd : NoDup ids) by (now apply setAdd_NoDup).
  assert (Hkeep : NoDup (sliceLast 500 ids)) by (now apply NoDup_skipn).
  split; [|split].
  - destruct (1000 <? length ids); [now rewrite refill_NoDup | exact Hnd].
  - destruct (1000 <? length ids) eqn:E.
    + rewrite refill_NoDup by exact Hkeep. rewrite sliceLast_length. lia.
    + now apply Nat.ltb_ge in E.
  - rewrite mapSet_keys.
    destruct (hasKey (normalizeTitle title) (titleCache c)) eqn:E; [exact Hkeys|].
    apply NoDup_app; [exact Hkeys | repeat constructor; auto |].
    intros k Hk [<- | []]. apply hasKey_iff in Hk. congruence.
Qed.

Lemma processArticle_invariant (article : Article) (w : World) (s : State) :
  cacheInvariant (cache s) ->
  cacheInvariant (cache (snd (run (processArticle article) w s))).
Proof.
  intros Hinv.
  destruct (processArticle_outcomes article w s)
    as [(_ & [Hc | Hc]) | [(_ & Hc) | (m & k & f & t & _ & _ & _ & Hc)]];
    rewrite Hc; auto using afterDedup_invariant, addToCache_invariant.
Qed.

Lemma forEach_invariant {A : Type} (body : A -> M unit) (l : list A) :
  (forall x w s, cacheInvariant (cache s) ->
                 cacheInvariant (cache (snd (run (body x) w s)))) ->
  forall w s, cacheInvariant (cache s) ->
              cacheInvariant (cache (snd (run (forEach body l) w s))).
Proof.
  intros Hbody. induction l as [|x l IH]; intros w s Hinv; cbn [forEach].
  - exact Hinv.
  - specialize (Hbody x w s Hinv). unfold run in *. unfold bind.
    destruct (body x w s) as [[[]|e] s1]; cbn [snd] in *; auto.
Qed.

Lemma checkFeed_invariant (feedUrl : string) (w : World) (s : State) :
  cacheInvariant (cache s) ->
  cacheInvariant (cache (snd (run (checkFeed feedUrl) w s))).
Proof.
  intros Hinv. unfold checkFeed. monad_simpl.
  destruct (parseURL w feedUrl) as [error|items]; [exact Hinv|].
  match goal with
  | |- context [forEach processArticle items w ?st] =>
      pose proof (forEach_invariant processArticle items
                    processArticle_invariant w st Hinv) as H;
      unfold run in H;
      destruct (forEach processArticle items w st) as [[[]|e] s1]
  end; exact H.
Qed.

(** X14: a tick keeps the caches well formed: if, before it, the seen set
    holds each identifier once and at most 1000 of them and the recent
    titles hold each normalized title once, the same is true after it,
    whatever the feeds return and the transport answers. *)
Theorem checkNewsFeeds_keeps_cache_invariant (w : World) (s : State) :
  cacheInvariant (cache s) ->
  cacheInvariant (cache (snd (run checkNewsFeeds w s))).
Proof.
  intros Hinv. unfold checkNewsFeeds. monad_simpl.
  match goal with
  | |- context [forEach checkFeed RSS_FEEDS w ?st] =>
      apply (forEach_invariant checkFeed RSS_FEEDS checkFeed_invariant w st)
  end.
  exact Hinv.
Qed.

Lemma checkNewsFeeds_keeps_cache_invariant_witness :
  cacheInvariant (cache initialState) /\
  cacheInvariant
    (cache (snd (run checkNewsFeeds
                     (sampleWorld alwaysDelivered (firstFeedOnly [fedArticle; rallyArticle]))
                     initialState))).
Proof.
  assert (H : cacheInvariant (cache initialState)).
  { repeat split; cbn; try constructor. apply Nat.leb_le. reflexivity. }
  split; [exact H|].
  now apply checkNewsFeeds_keeps_cache_invariant.
Defined.

(** ** What a tick fetches and sends *)

Lemma retryBlocks_no_fetch (w : World) (message : string) (a k : nat) :
  filter isFetch (flat_map (retryBlock w message) (seq a k)) = [].
Proof.
  revert a; induction k as [|k IH]; intros a; cbn [seq flat_map]; [reflexivity|].
  rewrite filter_app, IH, app_nil_r.
  unfold retryBlock. destruct (sendMessage w a message); reflexivity.
Qed.

Lemma processArticle_no_fetch (article : Article) (w : World) (s : State) :
  exists evs,
    trace (snd (run (processArticle article) w s)) = trace s ++ evs /\
    filter isFetch evs = [].
Proof.
  destruct (processArticle_outcomes article w s)
    as [(Ht & _) | [(Ht & _) | (m & k & f & t & _ & Hend & Ht & _)]];
    eexists; (split; [exact Ht|]); try reflexivity.
  cbn [filter isFetch]. rewrite !filter_app, retryBlocks_no_fetch.
  cbn [filter isFetch app]. unfold cacheLogs.
  destruct (cacheOverflows _); inversion Hend; subst; reflexivity.
Qed.

Lemma forEach_processArticle_no_fetch (items : list Article) (w : World) :
  forall s, exists evs,
    trace (snd (run (forEach processArticle items) w s)) = trace s ++ evs /\
    filter isFetch evs = [].
Proof.
  induction items as [|x items IH]; intros s; cbn [forEach].
  - exists []. split; [now rewrite app_nil_r | reflexivity].
  - destruct (processArticle_no_fetch x w s) as (evs1 & Ht1 & Hf1).
    unfold run in *. unfold bind.
    destruct (processArticle x w s) as [[[]|e] s1]; cbn [snd] in Ht1.
    + destruct (IH s1) as (evs2 & Ht2 & Hf2).
      exists (evs1 ++ evs2). split.
      * now rewrite Ht2, Ht1, app_assoc.
      * now rewrite filter_app, Hf1, Hf2.
    + exists evs1. auto.
Qed.

Lemma checkFeed_fetches_once (feedUrl : string) (w : World) (s : State) :
  exists evs,
    run (checkFeed feedUrl) w s
    = (Normal tt, snd (run (checkFeed feedUrl) w s)) /\
    trace (snd (run (checkFeed feedUrl) w s)) = trace s ++ evs /\
    filter isFetch evs = [EvFetch feedUrl].
Proof.
  unfold checkFeed. monad_simpl.
  destruct (parseURL w feedUrl) as [error|items].
  - exists [EvLog (LogFetching feedUrl); EvFetch feedUrl; EvLog (ErrFeed feedUrl error)].
    cbn [snd trace]. repeat split. now rewrite <- !app_assoc.
  - match goal with
    | |- context [forEach processArticle items w ?st] =>
        destruct (forEach_processArticle_no_fetch items w st) as (evs & Ht & Hf);
        unfold run in Ht;
        destruct (forEach processArticle items w st) as [[[]|e] s1]
    end; cbn [snd trace] in *.
    + exists (EvLog (LogFetching feedUrl) :: EvFetch feedUrl :: evs).
      repeat split.
      * rewrite Ht. now rewrite <- !app_assoc.
      * cbn [filter isFetch]. now rewrite Hf.
    + exists ((EvLog (LogFetching feedUrl) :: EvFetch feedUrl :: evs)
              ++ [EvLog (ErrFeed feedUrl e)]).
      repeat split.
      * rewrite Ht. now rewrite <- !app_assoc.
      * rewrite filter_app. cbn [filter isFetch]. now rewrite Hf.
Qed.

Lemma forEach_checkFeed_fetches (feeds : list string) (w : World) :
  forall s, exists evs,
    trace (snd (run (forEach checkFeed feeds) w s)) = trace s ++ evs /\
    filter isFetch evs = map EvFetch feeds.
Proof.
  induction feeds as [|url feeds IH]; intros s; cbn [forEach map].
  - exists []. split; [now rewrite app_nil_r | reflexivity].
  - destruct (checkFeed_fetches_once url w s) as (evs1 & Hrun & Ht1 & Hf1).
    unfold run in *. unfold bind. rewrite Hrun.
    destruct (IH (snd (checkFeed url w s))) as (evs2 & Ht2 & Hf2).
    exists (evs1 ++ evs2). split.
    + now rewrite Ht2, Ht1, app_assoc.
    + now rewrite filter_app, Hf1, Hf2.
Qed.

(** X15: a tick fetches every feed of [RSS_FEEDS], each once and in the order
    of the list, whatever happens on the way: a feed that cannot be
    fetched, or an entry that cannot be processed, does not keep the later
    feeds from being fetched. *)
Theorem checkNewsFeeds_fetches_every_feed (w : World) (s : State) :
  filter isFetch (emitted checkNewsFeeds w s) = map EvFetch RSS_FEEDS.
Proof.
  assert (H : exists evs,
             trace (snd (run checkNewsFeeds w s)) = trace s ++ evs /\
             filter isFetch evs = map EvFetch RSS_FEEDS).
  { unfold checkNewsFeeds. monad_simpl.
    match goal with
    | |- context [forEach checkFeed RSS_FEEDS w ?st] =>
        destruct (forEach_checkFeed_fetches RSS_FEEDS w st) as (evs & Ht & Hf)
    end.
    unfold run in Ht. cbn [trace] in Ht.
    exists (EvLog (LogChecking (toLocaleString w (clock s))) :: evs).
    split; [rewrite Ht; now rewrite <- app_assoc | exact Hf]. }
  destruct H as (evs & Ht & Hf).
  now rewrite (emitted_of_trace _ w s evs Ht).
Qed.

Lemma retryBlocks_sends_exact (w : World) (message : string) (a k : nat) :
  (forall i, a <= i < a + k -> rateLimitedAt w message i) ->
  countSends (flat_map (retryBlock w message) (seq a k)) = k.
Proof.
  revert a; induction k as [|k IH]; intros a Hlim; cbn [seq flat_map]; [reflexivity|].
  rewrite countSends_app, IH by (intros i Hi; apply Hlim; lia).
  destruct (Hlim a) as (error & He & _); [lia|].
  unfold retryBlock. rewrite He. reflexivity.
Qed.

Lemma TickTrace_counts (w : World) (evs : list Event) :
  TickTrace w evs ->
  countRecords evs <= countSends evs /\ countSends evs <= 3 * countRecords evs.
Proof.
  induction 1 as [|e evs Hq _ IH|m first k final id t evs Hlim Hend _ IH].
  - cbn. lia.
  - change (e :: evs) with ([e] ++ evs).
    rewrite countRecords_app, countSends_app.
    assert (countRecords [e] = 0 /\ countSends [e] = 0)
      by (destruct e as [[]| | | |]; try discriminate; split; reflexivity).
    lia.
  - change (EvRecord id t :: evs) with ([EvRecord id t] ++ evs).
    rewrite !countRecords_app, !countSends_app.
    rewrite retryBlocks_records, (retryBlocks_sends_exact w m first k Hlim).
    assert (Hf : countRecords final = 0 /\
                 (k < 3 /\ countSends final = 1 \/ k = 3 /\ countSends final = 0))
      by (inversion Hend; subst; cbn; split; auto).
    assert (Hr : countRecords [EvRecord id t] = 1 /\ countSends [EvRecord id t] = 0)
      by (split; reflexivity).
    lia.
Qed.

Lemma retryBlocks_pacing (w : World) (message : string) (a k : nat) :
  (forall i, a <= i < a + k -> rateLimitedAt w message i) ->
  filter isSendOrRecord (flat_map (retryBlock w message) (seq a k))
  = repeat (EvSend message) k.
Proof.
  revert a; induction k as [|k IH]; intros a Hlim; cbn [seq flat_map repeat];
    [reflexivity|].
  rewrite filter_app, IH by (intros i Hi; apply Hlim; lia).
  destruct (Hlim a) as (error & He & _); [lia|].
  unfold retryBlock. rewrite He. reflexivity.
Qed.

Lemma repeat_snoc_app {A : Type} (a : A) (k : nat) (l : list A) :
  repeat a k ++ a :: l = repeat a (S k) ++ l.
Proof.
  cbn [repeat]. rewrite repeat_cons, <- app_assoc. reflexivity.
Qed.

Lemma TickTrace_groups (w : World) (evs : list Event) :
  TickTrace w evs -> DispatchGroups (filter isSendOrRecord evs).
Proof.
  induction 1 as [|e evs Hq _ IH|m first k final id t evs Hlim Hend Htick IH].
  - apply GroupsNil.
  - cbn [filter].
    replace (isSendOrRecord e) with false
      by (destruct e as [[]| | | |]; try discriminate; reflexivity).
    exact IH.
  - rewrite !filter_app, (retryBlocks_pacing w m first k Hlim).
    cbn [filter isSendOrRecord isSend isRecord orb].
    inversion Hend; subst; cbn [filter isSendOrRecord isSend isRecord orb app].
    + rewrite repeat_snoc_app.
      apply (GroupsCons m (S k)); [lia | exact IH].
    + rewrite repeat_snoc_app.
      apply (GroupsCons m (S k)); [lia | exact IH].
    + apply (GroupsCons m 3); [lia | exact IH].
Qed.

(** X16: over a whole tick the calls of [bot.sendMessage] and of
    [addToCache] come in groups, entry by entry: one to three sends of one
    and the same message, then the recording of that entry, with no other
    send or recording in between.  Every send belongs to such a group, so
    none is made for an entry that is not recorded; in total there are at
    least as many sends as recordings and at most three times as many. *)
Theorem checkNewsFeeds_sends_per_record (w : World) (s : State) :
  let events := emitted checkNewsFeeds w s in
  DispatchGroups (filter isSendOrRecord events)
  /\ countRecords events <= countSends events
  /\ countSends events <= 3 * countRecords events.
Proof.
  intros events. subst events.
  destruct (checkNewsFeeds_traced w s) as (evs & Ht & Hp).
  rewrite (emitted_of_trace _ w s evs Ht).
  split; [now apply (TickTrace_groups w) | now apply (TickTrace_counts w)].
Qed.

(** ** Classifier, further *)

(** X20: for every keyword of the two sentiment lists, two matches of its
    pattern in a text never overlap: the later one starts at or after the
    end of the earlier one, so counting matches counts separate words. *)
Theorem sentiment_matches_never_overlap (kw text : string) (i j : nat) :
  In kw (POSITIVE_KEYWORDS ++ NEGATIVE_KEYWORDS) ->
  occursWordBoundedAt kw text i = true ->
  occursWordBoundedAt kw text j = true ->
  i < j ->
  i + String.length kw <= j.
Proof.
  intros Hin Hi Hj Hlt.
  assert (Hplain : plainKeyword kw = true).
  { destruct sentiment_keywords_plain as [Hpos Hneg].
    rewrite forallb_forall in Hpos, Hneg.
    apply in_app_iff in Hin. destruct Hin as [Hin | Hin]; auto. }
  exact (wordBounded_occurrences_disjoint kw text i j Hplain Hi Hj Hlt).
Qed.

Lemma sentiment_matches_never_overlap_witness :
  occursWordBoundedAt "up" "up, up and away" 0 = true /\
  occursWordBoundedAt "up" "up, up and away" 4 = true /\
  0 + String.length "up" <= 4.
Proof.
  split; [reflexivity|]. split; [reflexivity|].
  apply (sentiment_matches_never_overlap "up" "up, up and away" 0 4);
    [vm_compute; tauto | reflexivity | reflexivity | lia].
Defined.

(** X18: relevance only grows with the text: when the title and snippet of an
    entry contain those of a relevant entry, it is relevant too. *)
Theorem isMarketRelevant_monotone (article longer : Article) (pre post : string) :
  titleAndSnippet longer = (pre ++ titleAndSnippet article ++ post)%string ->
  isMarketRelevant article = true ->
  isMarketRelevant longer = true.
Proof.
  intros Htext. unfold isMarketRelevant. rewrite !existsb_exists.
  intros (keyword & Hin & Hk). exists keyword. split; [exact Hin|].
  rewrite content_titleAndSnippet in *. rewrite Htext, !toLowerCase_app.
  apply includes_iff in Hk. destruct Hk as (a & b & Hk). rewrite Hk.
  apply includes_iff.
  exists (toLowerCase pre ++ a)%string, (b ++ toLowerCase post)%string.
  now rewrite !append_assoc.
Qed.

Lemma isMarketRelevant_monotone_witness :
  isMarketRelevant
    {| guid := None; link := None; title := "Fed raises interest rates";
       contentSnippet := Some "and markets react"; creator := None;
       author := None; isoDate := None |} = true.
Proof.
  apply (isMarketRelevant_monotone fedArticle _ "" "and markets react");
    reflexivity.
Defined.

Lemma substring_zero_prefix (text : string) :
  forall n, exists post, text = (substring 0 n text ++ post)%string.
Proof.
  induction text as [|c text IH]; intros [|n]; cbn [substring append].
  - now exists EmptyString.
  - now exists EmptyString.
  - now exists (String c text).
  - destruct (IH n) as (post & H). exists post. now rewrite <- H.
Qed.

Lemma substring_split (text : string) :
  forall i n, exists pre post, text = (pre ++ substring i n text ++ post)%string.
Proof.
  induction text as [|c text IH]; intros i n.
  - exists EmptyString, EmptyString. destruct i, n; reflexivity.
  - destruct i as [|i].
    + destruct (substring_zero_prefix (String c text) n) as (post & H).
      now exists EmptyString, post.
    + destruct (IH i n) as (pre & post & H). cbn [substring].
      exists (String c pre), post. cbn [append]. now rewrite <- H.
Qed.

Lemma occursWordBoundedAt_includes (kw text : string) (i : nat) :
  occursWordBoundedAt kw text i = true -> includes text kw = true.
Proof.
  unfold occursWordBoundedAt. intros H.
  apply andb_true_iff in H. destruct H as [H _].
  apply andb_true_iff in H. destruct H as [H _].
  apply String.eqb_eq in H. apply includes_iff.
  destruct (substring_split text i (String.length kw)) as (pre & post & Hs).
  rewrite H in Hs. eauto.
Qed.

Lemma countMatches_absent (kw text : string) :
  plainKeyword kw = true -> includes text kw = false -> countMatches kw text = 0.
Proof.
  intros Hplain Hno. rewrite countMatches_occurrences by exact Hplain.
  unfold wordBoundedOccurrences. rewrite filter_none; [reflexivity|].
  intros i _. apply not_true_is_false. intros Hocc.
  apply occursWordBoundedAt_includes in Hocc. congruence.
Qed.

Lemma keywordScore_absent (keywords : list string) (text : string) :
  forallb plainKeyword keywords = true ->
  (forall kw, In kw keywords -> includes text kw = false) ->
  keywordScore keywords text = 0.
Proof.
  intros Hplain Hno. unfold keywordScore. rewrite fold_left_add_from.
  cbn [plus]. rewrite forallb_forall in Hplain.
  induction keywords as [|kw keywords IH]; [reflexivity|].
  cbn [map list_sum].
  assert (Hl : allLower kw = true).
  { specialize (Hplain kw (or_introl eq_refl)). unfold plainKeyword in Hplain.
    now apply andb_true_iff in Hplain. }
  rewrite (allLower_toLowerCase kw Hl).
  rewrite countMatches_absent;
    [ | apply Hplain; now left | apply Hno; now left ].
  cbn [plus]. apply IH; intros; [apply Hplain | apply Hno]; now right.
Qed.

(** X19: an entry whose lower-cased title and snippet contain none of the
    sentiment keywords, not even inside a longer word, scores 0 and is
    labelled neutral. *)
Theorem analyzeSentiment_neutral_without_keywords (article : Article) :
  (forall kw, In kw (POSITIVE_KEYWORDS ++ NEGATIVE_KEYWORDS) ->
              includes (content article) kw = false) ->
  score (analyzeSentiment article) = 0%Z
  /\ sentiment (analyzeSentiment article) = "neutral".
Proof.
  intros Hno. destruct sentiment_keywords_plain as [Hpos Hneg].
  unfold analyzeSentiment.
  rewrite (keywordScore_absent POSITIVE_KEYWORDS) by
      (auto; intros kw Hin; apply Hno, in_app_iff; now left).
  rewrite (keywordScore_absent NEGATIVE_KEYWORDS) by
      (auto; intros kw Hin; apply Hno, in_app_iff; now right).
  split; reflexivity.
Qed.

Lemma analyzeSentiment_neutral_without_keywords_witness :
  sentiment (analyzeSentiment
               {| guid := None; link := None; title := "Nifty and Sensex open flat";
                  contentSnippet := None; creator := None; author := None;
                  isoDate := None |}) = "neutral".
Proof.
  apply analyzeSentiment_neutral_without_keywords.
  intros kw Hin.
  assert (H : forallb (fun k => negb (includes
                 (content {| guid := None; link := None;
                             title := "Nifty and Sensex open flat";
                             contentSnippet := None; creator := None;
                             author := None; isoDate := None |}) k))
                (POSITIVE_KEYWORDS ++ NEGATIVE_KEYWORDS) = true)
    by (vm_compute; reflexivity).
  rewrite forallb_forall in H. specialize (H kw Hin).
  now apply negb_true_iff in H.
Defined.

(** ** Failures of the collaborators *)

Lemma checkFeed_fetch_failure (feedUrl error : string) (w : World) (s : State) :
  parseURL w feedUrl = inl error ->
  run (checkFeed feedUrl) w s =
  (Normal tt,
   {| cache := cache s; sent := sent s;
      clock := (clock s + fetchLatency w feedUrl)%Z;
      trace := trace s ++ [EvLog (LogFetching feedUrl); EvFetch feedUrl;
                           EvLog (ErrFeed feedUrl error)] |}).
Proof.
  intros H. unfold checkFeed. monad_simpl. rewrite H. monad_simpl.
  now rewrite <- !app_assoc.
Qed.

Lemma forEach_checkFeed_failing (feeds : list string) (w : World) :
  (forall url, In url feeds -> exists error, parseURL w url = inl error) ->
  forall s,
    fst (run (forEach checkFeed feeds) w s) = Normal tt /\
    cache (snd (run (forEach checkFeed feeds) w s)) = cache s /\
    sent (snd (run (forEach checkFeed feeds) w s)) = sent s /\
    exists evs,
      trace (snd (run (forEach checkFeed feeds) w s)) = trace s ++ evs /\
      countSends evs = 0 /\ countRecords evs = 0.
Proof.
  induction feeds as [|url feeds IH]; intros Hfail s; cbn [forEach].
  - repeat split. exists []. now rewrite app_nil_r.
  - destruct (Hfail url (or_introl eq_refl)) as (error & Herr).
    pose proof (checkFeed_fetch_failure url error w s Herr) as Hrun.
    unfold run in *. unfold bind. rewrite Hrun.
    match goal with
    | |- context [forEach checkFeed feeds w ?st] =>
        destruct (IH (fun u Hu => Hfail u (or_intror Hu)) st)
          as (Hres & Hc & Hs & evs & Ht & Hns & Hnr)
    end.
    cbn [cache sent trace] in *. repeat split; auto.
    exists ([EvLog (LogFetching url); EvFetch url; EvLog (ErrFeed url error)] ++ evs).
    rewrite Ht, countSends_app, countRecords_app, Hns, Hnr.
    repeat split. now rewrite <- app_assoc.
Qed.

(** X17: a tick always returns normally, whatever the feeds return and
    the transport answers; and a tick in which no feed can be fetched
    sends nothing, records nothing and leaves both caches as they were. *)
Theorem checkNewsFeeds_survives_failures (w : World) (s : State) :
  fst (run checkNewsFeeds w s) = Normal tt
  /\ ((forall url, In url RSS_FEEDS -> exists error, parseURL w url = inl error) ->
      cache (snd (run checkNewsFeeds w s)) = cache s /\
      sent (snd (run checkNewsFeeds w s)) = sent s /\
      countSends (emitted checkNewsFeeds w s) = 0 /\
      countRecords (emitted checkNewsFeeds w s) = 0).
Proof.
  split; [apply checkNewsFeeds_returns|].
  intros Hfail.
  assert (H : cache (snd (run checkNewsFeeds w s)) = cache s /\
              sent (snd (run checkNewsFeeds w s)) = sent s /\
              exists evs, trace (snd (run checkNewsFeeds w s)) = trace s ++ evs /\
                          countSends evs = 0 /\ countRecords evs = 0).
  { unfold checkNewsFeeds. monad_simpl.
    match goal with
    | |- context [forEach checkFeed RSS_FEEDS w ?st] =>
        destruct (forEach_checkFeed_failing RSS_FEEDS w Hfail st)
          as (_ & Hc & Hs & evs & Ht & Hns & Hnr)
    end.
    unfold run in *. cbn [cache sent trace] in *. repeat split; auto.
    exists (EvLog (LogChecking (toLocaleString w (clock s))) :: evs).
    rewrite Ht. repeat split; auto. now rewrite <- app_assoc. }
  destruct H as (Hc & Hs & evs & Ht & Hns & Hnr).
  rewrite (emitted_of_trace _ w s evs Ht). auto.
Qed.

Lemma checkNewsFeeds_survives_failures_witness :
  let w := sampleWorld alwaysDelivered (fun _ => inl "getaddrinfo ENOTFOUND") in
  cache (snd (run checkNewsFeeds w initialState)) = cache initialState /\
  countSends (emitted checkNewsFeeds w initialState) = 0.
Proof.
  cbv zeta.
  destruct (proj2 (checkNewsFeeds_survives_failures
                     (sampleWorld alwaysDelivered (fun _ => inl "getaddrinfo ENOTFOUND"))
                     initialState)) as (Hc & _ & Hs & _).
  - intros url _. now exists "getaddrinfo ENOTFOUND".
  - split; assumption.
Defined.

(** X12: a first attempt that fails with an error whose message holds
    "429" anywhere is always followed by the wait and by a second attempt
    with the same message. *)
Theorem sendToTelegram_retries_after_rate_limit
        (w : World) (s : State) (message pre post : string) :
  sendMessage w (sent s) message = Some (pre ++ "429" ++ post)%string ->
  let wait := waitTimeOf (pre ++ "429" ++ post) in
  exists rest,
    emitted (sendToTelegram message) w s =
      [EvSend message; EvLog (LogRateLimited wait); EvSleep wait; EvSend message]
      ++ rest.
Proof.
  intros Hsend wait.
  assert (Hrl : isRateLimit (pre ++ "429" ++ post) = true)
    by (apply includes_iff; eauto).
  unfold sendToTelegram, maxRetries.
  destruct (sendLoop_shape 3 w message s)
    as (k & final & Hk & Hlim & Hend & _ & _ & Htrace).
  apply emitted_of_trace in Htrace. rewrite Htrace.
  destruct k as [|k].
  { exfalso. rewrite Nat.add_0_r in Hend.
    inversion Hend; subst; congruence || lia. }
  cbn [seq flat_map]. unfold retryBlock at 1. rewrite Hsend. fold wait.
  destruct k as [|k].
  - cbn [seq flat_map app].
    inversion Hend; subst; try lia; eexists; reflexivity.
  - cbn [seq flat_map]. unfold retryBlock at 1.
    destruct (Hlim (S (sent s))) as (e & He & _); [lia|]. rewrite He.
    cbn [app]. eexists. reflexivity.
Qed.

Lemma sendToTelegram_retries_after_rate_limit_witness :
  exists rest,
    emitted (sendToTelegram "hello")
            (sampleWorld (fun _ _ => Some "ETELEGRAM: 429 Too Many Requests: retry after 5")
                         (firstFeedOnly []))
            initialState
    = [EvSend "hello"; EvLog (LogRateLimited 5000); EvSleep 5000; EvSend "hello"] ++ rest.
Proof.
  apply (sendToTelegram_retries_after_rate_limit
           (sampleWorld (fun _ _ => Some "ETELEGRAM: 429 Too Many Requests: retry after 5")
                        (firstFeedOnly []))
           initialState "hello" "ETELEGRAM: " " Too Many Requests: retry after 5").
  reflexivity.
Defined.
